(** * Lab 8 support code: FE310 GPIO pin API and SPI1 driver

    A shallow embedding of
    - [EasyREDVIO.h]            (Arduino-style pin API with the D-pin table),
    - [EasyREDVIO_ThingPlus.h]  (the same API indexed by raw GPIO number),
    - [REDV_SPI.h]              (the SPI register block),
    - [lab8starter.c]           (spiInit, spiSendReceive, spiSendReceive16,
                                 spiWrite, spiRead),
    together with the properties of these functions.

    Conventions of the embedding:
    - integers are [Z], with the C conversions and the undefined cases of
      the shifts and of the array access written out;
    - a register block is a total map from the names of its registers (GPIO)
      or bit-fields (SPI) to values; the GPIO block behaves as memory;
    - an assignment to a bit-field of SPI1 is one store of the value reduced
      to the width of the field, a read of a bit-field is one load; every
      such access is appended to a trace;
    - the SPI peripheral is a parameter: it answers every load as a function
      of the accesses made so far, so it may react to what was written and
      to how often it was polled;
    - the two busy-wait loops of [spiSendReceive] take fuel, the number of
      polls each loop may make; [OutOfFuel] means the loop is still
      spinning. *)

From Stdlib Require Import ZArith List Bool Lia.
Import ListNotations.

Local Open Scope Z_scope.

(* ================================================================== *)
(** ** C integer arithmetic *)

Definition to_u8  (x : Z) : Z := x mod 2 ^ 8.
Definition to_u16 (x : Z) : Z := x mod 2 ^ 16.
Definition to_u32 (x : Z) : Z := x mod 2 ^ 32.

Definition INT_MAX : Z := 2 ^ 31 - 1.

(** [a << n] on [int]: undefined for a negative or too large shift count,
    for a negative left operand and when the result does not fit. *)
Definition int_shl (a n : Z) : option Z :=
  if (0 <=? n) && (n <? 32) && (0 <=? a) && (Z.shiftl a n <=? INT_MAX)
  then Some (Z.shiftl a n)
  else None.

(** [a >> n] with [a] a [uint32_t] and [n] an [int]. *)
Definition u32_shr (a n : Z) : option Z :=
  if (0 <=? n) && (n <? 32) then Some (Z.shiftr a n) else None.

(** [a[i]] on an array of [int]; an access outside the array is undefined. *)
Definition array_get (a : list Z) (i : Z) : option Z :=
  if i <? 0 then None else nth_error a (Z.to_nat i).

(* ================================================================== *)
(** ** Register blocks *)

(** The members of [GPIO], in the order of the struct. *)
Inductive gpio_reg : Set :=
| input_val | input_en | output_en | output_val | pue | ds
| rise_ie | rise_ip | fall_ie | fall_ip | high_ie | high_ip
| low_ie | low_ip | iof_en | iof_sel | out_xor.

Definition gpio_reg_eq_dec (a b : gpio_reg) : {a = b} + {a <> b}.
Proof. decide equality. Defined.

Definition GPIO : Type := gpio_reg -> Z.

(** The bit-fields of [SPI], named register_field. *)
Inductive spi_field : Set :=
| sckdiv_div
| sckmode_pha | sckmode_pol
| csid_csid
| csdef_csdef
| csmode_mode
| delay0_cssck | delay0_sckcs
| delay1_intercs | delay1_interxfr
| fmt_proto | fmt_endian | fmt_dir | fmt_len
| txdata_data | txdata_full
| rxdata_data | rxdata_empty
| txmark_txmark
| rxmark_rxmark
| fctrl_en
| ffmt_cmd_en | ffmt_addr_len | ffmt_pad_cnt | ffmt_cmd_proto
| ffmt_addr_proto | ffmt_data_proto | ffmt_cmd_code | ffmt_pad_code
| ie_txwm | ie_rxwm
| ip_txwm | ip_rxwm.

Definition spi_field_eq_dec (a b : spi_field) : {a = b} + {a <> b}.
Proof. decide equality. Defined.

(** Width in bits of each field, as declared in [REDV_SPI.h]. *)
Definition width (f : spi_field) : Z :=
  match f with
  | sckdiv_div => 12
  | sckmode_pha | sckmode_pol => 1
  | csid_csid | csdef_csdef => 32
  | csmode_mode => 2
  | delay0_cssck | delay0_sckcs | delay1_intercs | delay1_interxfr => 8
  | fmt_proto => 2
  | fmt_endian | fmt_dir => 1
  | fmt_len => 4
  | txdata_data => 8
  | txdata_full => 1
  | rxdata_data => 8
  | rxdata_empty => 1
  | txmark_txmark | rxmark_rxmark => 3
  | fctrl_en => 1
  | ffmt_cmd_en => 1
  | ffmt_addr_len => 3
  | ffmt_pad_cnt => 4
  | ffmt_cmd_proto | ffmt_addr_proto | ffmt_data_proto => 2
  | ffmt_cmd_code | ffmt_pad_code => 8
  | ie_txwm | ie_rxwm | ip_txwm | ip_rxwm => 1
  end.

Definition SPI : Type := spi_field -> Z.

(** One access of the program to the SPI1 block. *)
Inductive access : Set :=
| Load  (f : spi_field) (v : Z)
| Store (f : spi_field) (v : Z).

(** The state the program acts on: the GPIO0 block, the values last stored
    to the fields of SPI1, and the accesses to SPI1 so far, oldest first. *)
Record machine : Type := mkMachine {
  gpio  : GPIO;
  spi   : SPI;
  trace : list access
}.

(** The SPI peripheral: the value a volatile load of a field returns, given
    all earlier accesses. *)
Definition peripheral : Type := list access -> spi_field -> Z.

(* ================================================================== *)
(** ** The monad of the embedding *)

Inductive result (A : Type) : Type :=
| Done (a : A) (m : machine)   (* returned [a] in state [m] *)
| Undefined                    (* undefined behaviour in C *)
| OutOfFuel.                   (* a busy-wait loop is still spinning *)

Arguments Done {A} a m.
Arguments Undefined {A}.
Arguments OutOfFuel {A}.

Definition M (A : Type) : Type := machine -> result A.

Definition ret {A} (a : A) : M A := fun m => Done a m.

Definition bind {A B} (c : M A) (k : A -> M B) : M B :=
  fun m =>
    match c m with
    | Done a m' => k a m'
    | Undefined => Undefined
    | OutOfFuel => OutOfFuel
    end.

Declare Scope c_scope.
Delimit Scope c_scope with C.
Notation "x <- c ;; k" := (bind c (fun x => k))
  (at level 61, c at next level, right associativity) : c_scope.
Notation "c ;; k" := (bind c (fun _ => k))
  (at level 61, right associativity) : c_scope.
Local Open Scope c_scope.

Definition defined {A} (o : option A) : M A :=
  fun m => match o with Some a => Done a m | None => Undefined end.

(** [GPIO0->r |= e] and [GPIO0->r &= e] with [e] of type [int]: [e] is
    converted to [uint32_t] and the result is stored back. *)
Definition upd_gpio (r : gpio_reg) (v : Z) (g : GPIO) : GPIO :=
  fun r' => if gpio_reg_eq_dec r' r then v else g r'.

Definition upd_spi (f : spi_field) (v : Z) (s : SPI) : SPI :=
  fun f' => if spi_field_eq_dec f' f then v else s f'.

Definition or_assign (r : gpio_reg) (e : Z) : M unit :=
  fun m =>
    let v := to_u32 (Z.lor (gpio m r) (to_u32 e)) in
    Done tt (mkMachine (upd_gpio r v (gpio m)) (spi m) (trace m)).

Definition and_assign (r : gpio_reg) (e : Z) : M unit :=
  fun m =>
    let v := to_u32 (Z.land (gpio m r) (to_u32 e)) in
    Done tt (mkMachine (upd_gpio r v (gpio m)) (spi m) (trace m)).

Definition gpio_read (r : gpio_reg) : M Z :=
  fun m => Done (gpio m r) m.

(** [SPI1->reg.field = v]: the value is reduced to the width of the field. *)
Definition store (f : spi_field) (v : Z) : M unit :=
  fun m =>
    let v' := v mod 2 ^ width f in
    Done tt (mkMachine (gpio m) (upd_spi f v' (spi m)) (trace m ++ [Store f v'])).

(** The value a load of field [f] yields after the accesses [tr]: the
    answer of the peripheral, as wide as the field. *)
Definition answer (dev : peripheral) (tr : list access) (f : spi_field) : Z :=
  dev tr f mod 2 ^ width f.

(** A volatile load of [SPI1->reg.field], answered by the peripheral. *)
Definition load (dev : peripheral) (f : spi_field) : M Z :=
  fun m =>
    let v := answer dev (trace m) f in
    Done v (mkMachine (gpio m) (spi m) (trace m ++ [Load f v])).

(* ================================================================== *)
(** ** Constants shared by the two headers *)

Definition LOW : Z := 0.
Definition HIGH : Z := 1.
Definition INPUT : Z := 0.
Definition OUTPUT : Z := 1.
Definition GPIO_IOF0 : Z := 2.

(* ================================================================== *)
(** ** EasyREDVIO_ThingPlus.h *)

Module ThingPlus.

Definition pinMode (pin function : Z) : M unit :=
  if function =? INPUT then
    b <- defined (int_shl 1 pin);;
    or_assign input_en b
  else if function =? OUTPUT then
    b <- defined (int_shl 1 pin);;
    or_assign output_en b;;
    b <- defined (int_shl 1 pin);;
    and_assign iof_en (Z.lnot b)
  else if function =? GPIO_IOF0 then
    b <- defined (int_shl 1 pin);;
    and_assign iof_sel (Z.lnot b);;
    b <- defined (int_shl 1 pin);;
    or_assign iof_en b
  else ret tt.

Definition digitalWrite (pin val : Z) : M unit :=
  if negb (val =? 0) then
    b <- defined (int_shl 1 pin);;
    or_assign output_val b
  else
    b <- defined (int_shl 1 pin);;
    and_assign output_val (Z.lnot b).

Definition digitalRead (pin : Z) : M Z :=
  x <- gpio_read input_val;;
  y <- defined (u32_shr x pin);;
  ret (Z.land y 1).

End ThingPlus.

(* ================================================================== *)
(** ** EasyREDVIO.h *)

Module EasyREDVIO.

Definition digitalPinMapping : list Z :=
  [16; 17; 18; 19; 20; 21; 22; 23; 0; 1; 2; 3; 4; 5; -1; 9; 10; 11; 12; 13].

Definition pinToGPIO (pin : Z) : option Z :=
  if negb (pin =? 14) && (pin <? 20)
  then array_get digitalPinMapping pin
  else Some (-1).

Definition pinMode (pin function : Z) : M unit :=
  let pin_offset := Z.rem pin 32 in
  gpio_pin <- defined (pinToGPIO pin_offset);;
  if function =? INPUT then
    b <- defined (int_shl 1 gpio_pin);;
    or_assign input_en b
  else if function =? OUTPUT then
    b <- defined (int_shl 1 gpio_pin);;
    or_assign output_en b;;
    b <- defined (int_shl 1 gpio_pin);;
    and_assign iof_en (Z.lnot b)
  else if function =? GPIO_IOF0 then
    b <- defined (int_shl 1 gpio_pin);;
    and_assign iof_sel (Z.lnot b);;
    b <- defined (int_shl 1 gpio_pin);;
    or_assign iof_en b
  else ret tt.

Definition digitalWrite (pin val : Z) : M unit :=
  let pin_offset := Z.rem pin 32 in
  gpio_pin <- defined (pinToGPIO pin_offset);;
  if negb (val =? 0) then
    b <- defined (int_shl 1 gpio_pin);;
    or_assign output_val b
  else
    b <- defined (int_shl 1 gpio_pin);;
    and_assign output_val (Z.lnot b).

Definition digitalRead (pin : Z) : M Z :=
  let pin_offset := Z.rem pin 32 in
  gpio_pin <- defined (pinToGPIO pin_offset);;
  x <- gpio_read input_val;;
  y <- defined (u32_shr x gpio_pin);;
  ret (Z.land y 1).

End EasyREDVIO.

(* ================================================================== *)
(** ** lab8starter.c *)

(** [spiInit] uses the [pinMode] of [EasyREDVIO_ThingPlus.h], the header
    the file includes. *)
Definition spiInit (clkdivide cpol cpha : Z) : M unit :=
  ThingPlus.pinMode 2 GPIO_IOF0;;
  ThingPlus.pinMode 3 GPIO_IOF0;;
  ThingPlus.pinMode 4 GPIO_IOF0;;
  ThingPlus.pinMode 5 GPIO_IOF0;;
  store sckdiv_div clkdivide;;
  store sckmode_pol cpol;;
  store sckmode_pha cpha;;
  store csid_csid 0;;
  store csmode_mode 2;;
  store fmt_proto 0;;
  store fmt_endian 0;;
  store fmt_dir 0;;
  store fmt_len 8;;
  store fctrl_en 0;;
  store delay1_interxfr 0;;
  store delay0_cssck 0;;
  store delay0_sckcs 0;;
  store ie_rxwm 1;;
  store ie_txwm 1;;
  store rxmark_rxmark 0;;
  store txmark_txmark 1.

Section Driver.

Variable dev : peripheral.

(** [while (!SPI1->reg.field);] *)
Fixpoint wait_for (f : spi_field) (fuel : nat) : M unit :=
  match fuel with
  | O => fun _ => OutOfFuel
  | S fuel' =>
      v <- load dev f;;
      if v =? 0 then wait_for f fuel' else ret tt
  end.

Definition spiSendReceive (fuel : nat) (send : Z) : M Z :=
  wait_for ip_txwm fuel;;
  store txdata_data send;;
  wait_for ip_rxwm fuel;;
  v <- load dev rxdata_data;;
  ret (to_u8 v).

Definition spiSendReceive16 (fuel : nat) (data : Z) : M Z :=
  store csmode_mode 2;;
  char1 <- spiSendReceive fuel (to_u8 (Z.shiftr (Z.land data 0xFF00) 8));;
  char2 <- spiSendReceive fuel (to_u8 (Z.land data 0x00FF));;
  let rec := to_u16 (Z.lor (Z.shiftl char1 8) char2) in
  store csmode_mode 0;;
  ret rec.

Definition spiWrite (fuel : nat) (address value : Z) : M unit :=
  spiSendReceive16 fuel (to_u16 (Z.lor (Z.shiftl address 8) value));;
  ret tt.

Definition spiRead (fuel : nat) (address : Z) : M Z :=
  r <- spiSendReceive16 fuel
         (to_u16 (Z.lor (Z.shiftl address 8) (Z.shiftl 1 15)));;
  ret (to_u8 r).

End Driver.

(* ================================================================== *)
(** ** Observations on a run *)

(** The bytes stored to [txdata.data] and the bytes loaded from
    [rxdata.data], in order. *)
Definition tx_bytes (tr : list access) : list Z :=
  flat_map (fun e => match e with Store txdata_data v => [v] | _ => [] end) tr.

Definition rx_bytes (tr : list access) : list Z :=
  flat_map (fun e => match e with Load rxdata_data v => [v] | _ => [] end) tr.

(** The accesses [tr] followed by [k] polls of the flag [f] that found it
    clear. *)
Definition spins (f : spi_field) (k : nat) (tr : list access) : list access :=
  tr ++ repeat (Load f 0) k.

(** Polled again and again from [tr] on, the flag [f] is first found set at
    poll number [n] (counting from 0); resp. it is never found set. *)
Definition first_set (dev : peripheral) (f : spi_field) (tr : list access)
           (n : nat) : Prop :=
  (forall k, (k < n)%nat -> answer dev (spins f k tr) f = 0) /\
  answer dev (spins f n tr) f <> 0.

Definition never_set (dev : peripheral) (f : spi_field) (tr : list access)
  : Prop :=
  forall k, answer dev (spins f k tr) f = 0.

(** The accesses of a call [spiSendReceive send] that starts after [tr]
    and finds [ip.txwm] set at poll [n1], up to the store to [txdata]. *)
Definition sent (tr : list access) (n1 : nat) (send : Z) : list access :=
  spins ip_txwm n1 tr ++ [Load ip_txwm 1; Store txdata_data send].

(** The accesses up to the successful poll of [ip.rxwm], when that flag is
    first found set at poll [n2] after the store. *)
Definition received (tr : list access) (n1 : nat) (send : Z) (n2 : nat)
  : list access :=
  spins ip_rxwm n2 (sent tr n1 send) ++ [Load ip_rxwm 1].

(** The state in which a call [spiSendReceive s] returns that started in
    [m], found [ip.txwm] set at poll [n1] and then [ip.rxwm] set at poll
    [n2]. *)
Definition after_transfer (dev : peripheral) (m : machine) (n1 : nat) (s : Z)
           (n2 : nat) : machine :=
  let t := received (trace m) n1 s n2 in
  mkMachine (gpio m) (upd_spi txdata_data s (spi m))
            (t ++ [Load rxdata_data (answer dev t rxdata_data)]).

(** Register [r] holds the same bit [i] in [g] and [g']. *)
Definition same_bit (g g' : GPIO) (r : gpio_reg) (i : Z) : Prop :=
  Z.testbit (g' r) i = Z.testbit (g r) i.

(** From [m] to [m'] no bit of a GPIO register changed, except possibly
    bit [bit] of some registers. *)
Definition touches_only_bit (bit : Z) (m m' : machine) : Prop :=
  forall r i, 0 <= i < 32 -> i <> bit -> same_bit (gpio m) (gpio m') r i.

(** The value [GPIO0->r |= (1 << p)] resp. [GPIO0->r &= ~(1 << p)] leaves
    in a register that held [x]. *)
Definition set32 (p x : Z) : Z := to_u32 (Z.lor x (to_u32 (2 ^ p))).
Definition clear32 (p x : Z) : Z := to_u32 (Z.land x (to_u32 (Z.lnot (2 ^ p)))).

(** The GPIO block after [pinMode(p, GPIO_IOF0)] of the ThingPlus header. *)
Definition iof0 (p : Z) (g : GPIO) : GPIO :=
  upd_gpio iof_en (set32 p (g iof_en))
    (upd_gpio iof_sel (clear32 p (g iof_sel)) g).

(** The two register blocks after [spiInit(clkdivide, cpol, cpha)]. *)
Definition spiInit_gpio (g : GPIO) : GPIO :=
  iof0 5 (iof0 4 (iof0 3 (iof0 2 g))).

Definition spiInit_spi (clkdivide cpol cpha : Z) (s : SPI) : SPI :=
  upd_spi txmark_txmark 1
    (upd_spi rxmark_rxmark 0
      (upd_spi ie_txwm 1
        (upd_spi ie_rxwm 1
          (upd_spi delay0_sckcs 0
            (upd_spi delay0_cssck 0
              (upd_spi delay1_interxfr 0
                (upd_spi fctrl_en 0
                  (upd_spi fmt_len 8
                    (upd_spi fmt_dir 0
                      (upd_spi fmt_endian 0
                        (upd_spi fmt_proto 0
                          (upd_spi csmode_mode 2
                            (upd_spi csid_csid 0
                              (upd_spi sckmode_pha (cpha mod 2 ^ 1)
                                (upd_spi sckmode_pol (cpol mod 2 ^ 1)
                                  (upd_spi sckdiv_div (clkdivide mod 2 ^ 12)
                                     s)))))))))))))))).

(* ================================================================== *)
(** ** Simulated peripherals and states for the examples *)

(** All registers zero, no access yet. *)
Definition reset : machine := mkMachine (fun _ => 0) (fun _ => 0) [].

(** MOSI wired to MISO: a flag is found set on the poll that follows a poll
    of the same flag, and [rxdata] gives back the byte last transmitted. *)
Definition loopback : peripheral :=
  fun tr f =>
    match f with
    | ip_txwm | ip_rxwm =>
        match last tr (Store f 0) with
        | Load g _ => if spi_field_eq_dec g f then 1 else 0
        | Store _ _ => 0
        end
    | rxdata_data => last (tx_bytes tr) 0
    | _ => 0
    end.

(** A peripheral that never raises a flag. *)
Definition dead : peripheral := fun _ _ => 0.

(** A peripheral that is ready at once but never receives. *)
Definition deaf : peripheral :=
  fun _ f => match f with ip_txwm => 1 | _ => 0 end.

(* ================================================================== *)
(** ** The delay loop and [main] *)

Definition INT_MIN : Z := - 2 ^ 31.
Definition COUNTS_PER_MS : Z := 898.

(** [a * b] on [int]: undefined when the product does not fit. *)
Definition int_mul (a b : Z) : option Z :=
  if (INT_MIN <=? a * b) && (a * b <=? INT_MAX) then Some (a * b) else None.

(** The new value of [i] after [i--] on [int]: undefined below [INT_MIN]. *)
Definition int_dec (i : Z) : option Z :=
  if INT_MIN <=? i - 1 then Some (i - 1) else None.

(** Conversion to [int16_t], modulo 2^16. *)
Definition to_i16 (x : Z) : Z :=
  if x mod 2 ^ 16 <? 2 ^ 15 then x mod 2 ^ 16 else x mod 2 ^ 16 - 2 ^ 16.

(** [while (i--);] of [delayLoop], the same in both headers; [fuel] bounds
    the number of times the condition is evaluated. *)
Fixpoint delayLoop_while (fuel : nat) (i : Z) : M unit :=
  match fuel with
  | O => fun _ => OutOfFuel
  | S fuel' =>
      i' <- defined (int_dec i);;
      if negb (i =? 0) then delayLoop_while fuel' i' else ret tt
  end.

Definition delayLoop (fuel : nat) (ms : Z) : M unit :=
  i <- defined (int_mul COUNTS_PER_MS ms);;
  delayLoop_while fuel i.

Section Main.

Variable dev : peripheral.

(** C leaves open which of the two calls in [spiRead(lo) | (spiRead(hi) << 8)]
    is made first; [left_first] fixes it. *)
Variable left_first : bool.

(** [spiRead(lo) | (spiRead(hi) << 8)], stored to an [int16_t]. *)
Definition main_sample (fuel : nat) (lo hi : Z) : M Z :=
  if left_first then
    a <- spiRead dev fuel (to_u8 lo);;
    b <- spiRead dev fuel (to_u8 hi);;
    ret (to_i16 (Z.lor a (Z.shiftl b 8)))
  else
    b <- spiRead dev fuel (to_u8 hi);;
    a <- spiRead dev fuel (to_u8 lo);;
    ret (to_i16 (Z.lor a (Z.shiftl b 8))).

(** The statements of [main] before its loop; the value is [debug]. *)
Definition main_setup (fuel : nat) : M Z :=
  spiInit 10 1 1;;
  spiWrite dev fuel (to_u8 0x20) (to_u8 0x77);;
  spiWrite dev fuel (to_u8 0x23) (to_u8 0x88);;
  debug <- spiRead dev fuel (to_u8 0x0F);;
  ret debug.

(** One round of the loop of [main]; the value is [(x, y)]. *)
Definition main_body (fuel : nat) : M (Z * Z) :=
  x <- main_sample fuel 0x28 0x29;;
  y <- main_sample fuel 0x2A 0x2B;;
  delayLoop fuel 100;;
  ret (x, y).

(** [while(1) { ... }], for at most [rounds] rounds. *)
Fixpoint main_loop (fuel rounds : nat) : M Z :=
  match rounds with
  | O => fun _ => OutOfFuel
  | S rounds' => main_body fuel;; main_loop fuel rounds'
  end.

Definition main (fuel rounds : nat) : M Z :=
  main_setup fuel;;
  main_loop fuel rounds.

End Main.

(* ================================================================== *)
(** * Properties *)

(** ** Bits of the C integer operations *)

Lemma int_shl_1 (p : Z) : 0 <= p <= 30 -> int_shl 1 p = Some (2 ^ p).
Proof.
  intros Hp. unfold int_shl. rewrite Z.shiftl_1_l.
  assert (2 ^ p <= 2 ^ 30) by (apply Z.pow_le_mono_r; lia).
  assert (Hmax : 2 ^ 30 <= INT_MAX) by (vm_compute; discriminate).
  replace (0 <=? p) with true by (symmetry; apply Z.leb_le; lia).
  replace (p <? 32) with true by (symmetry; apply Z.ltb_lt; lia).
  replace (2 ^ p <=? INT_MAX) with true by (symmetry; apply Z.leb_le; lia).
  reflexivity.
Qed.

Lemma int_shl_neg (a p : Z) : p < 0 -> int_shl a p = None.
Proof.
  intros Hp. unfold int_shl.
  replace (0 <=? p) with false by (symmetry; apply Z.leb_gt; lia).
  reflexivity.
Qed.

Lemma testbit_u32 (x i : Z) :
  0 <= i < 32 -> Z.testbit (to_u32 x) i = Z.testbit x i.
Proof. intros Hi. unfold to_u32. apply Z.mod_pow2_bits_low. lia. Qed.

Lemma set_bit_other (x p i : Z) :
  0 <= p -> 0 <= i < 32 -> i <> p ->
  Z.testbit (to_u32 (Z.lor x (to_u32 (2 ^ p)))) i = Z.testbit x i.
Proof.
  intros Hp Hi Hne.
  rewrite testbit_u32, Z.lor_spec, testbit_u32 by assumption.
  rewrite Z.pow2_bits_eqb by assumption.
  replace (p =? i) with false by (symmetry; apply Z.eqb_neq; lia).
  apply orb_false_r.
Qed.

Lemma clear_bit_other (x p i : Z) :
  0 <= p -> 0 <= i < 32 -> i <> p ->
  Z.testbit (to_u32 (Z.land x (to_u32 (Z.lnot (2 ^ p))))) i = Z.testbit x i.
Proof.
  intros Hp Hi Hne.
  rewrite testbit_u32, Z.land_spec, testbit_u32 by assumption.
  rewrite Z.lnot_spec by lia.
  rewrite Z.pow2_bits_eqb by assumption.
  replace (p =? i) with false by (symmetry; apply Z.eqb_neq; lia).
  apply andb_true_r.
Qed.

(** ** Frame lemmas for the read-modify-write statements *)

Lemma touches_refl (bit : Z) (m : machine) : touches_only_bit bit m m.
Proof. intros r i _ _. reflexivity. Qed.

Lemma touches_trans (bit : Z) (m1 m2 m3 : machine) :
  touches_only_bit bit m1 m2 -> touches_only_bit bit m2 m3 ->
  touches_only_bit bit m1 m3.
Proof.
  intros H12 H23 r i Hi Hne. unfold same_bit in *.
  rewrite (H23 r i Hi Hne). apply H12; assumption.
Qed.

Lemma or_assign_frame (r : gpio_reg) (p : Z) (m : machine) :
  0 <= p ->
  exists m', or_assign r (2 ^ p) m = Done tt m' /\ touches_only_bit p m m'
             /\ spi m' = spi m /\ trace m' = trace m.
Proof.
  intros Hp. eexists. split; [reflexivity|]. split; [|split; reflexivity].
  intros r' i Hi Hne. unfold same_bit, upd_gpio. simpl.
  destruct (gpio_reg_eq_dec r' r) as [->|]; [|reflexivity].
  apply set_bit_other; assumption.
Qed.

Lemma and_assign_frame (r : gpio_reg) (p : Z) (m : machine) :
  0 <= p ->
  exists m', and_assign r (Z.lnot (2 ^ p)) m = Done tt m'
             /\ touches_only_bit p m m'
             /\ spi m' = spi m /\ trace m' = trace m.
Proof.
  intros Hp. eexists. split; [reflexivity|]. split; [|split; reflexivity].
  intros r' i Hi Hne. unfold same_bit, upd_gpio. simpl.
  destruct (gpio_reg_eq_dec r' r) as [->|]; [|reflexivity].
  apply clear_bit_other; assumption.
Qed.

(** Running [c1;; c2] when [c1] is known to return. *)
Lemma bind_done {A B} (c : M A) (k : A -> M B) (m m1 : machine) (a : A) :
  c m = Done a m1 -> bind c k m = k a m1.
Proof. intros H. unfold bind. rewrite H. reflexivity. Qed.

Lemma defined_some {A} (o : option A) (a : A) (m : machine) :
  o = Some a -> defined o m = Done a m.
Proof. intros ->. reflexivity. Qed.

Ltac shift_ok Hp :=
  rewrite (bind_done _ _ _ _ _ (defined_some _ _ _ (int_shl_1 _ Hp))).

Lemma pinMode_frame (p function : Z) (m : machine) :
  0 <= p <= 30 ->
  exists m', ThingPlus.pinMode p function m = Done tt m'
             /\ touches_only_bit p m m'
             /\ spi m' = spi m /\ trace m' = trace m.
Proof.
  intros Hp. assert (H0 : 0 <= p) by lia. unfold ThingPlus.pinMode.
  destruct (function =? INPUT).
  { shift_ok Hp. apply or_assign_frame; assumption. }
  destruct (function =? OUTPUT).
  { shift_ok Hp.
    destruct (or_assign_frame output_en p m H0) as (m1 & E1 & T1 & S1 & R1).
    rewrite (bind_done _ _ _ _ _ E1). shift_ok Hp.
    destruct (and_assign_frame iof_en p m1 H0) as (m2 & E2 & T2 & S2 & R2).
    exists m2. repeat split; try congruence.
    eapply touches_trans; eassumption. }
  destruct (function =? GPIO_IOF0).
  { shift_ok Hp.
    destruct (and_assign_frame iof_sel p m H0) as (m1 & E1 & T1 & S1 & R1).
    rewrite (bind_done _ _ _ _ _ E1). shift_ok Hp.
    destruct (or_assign_frame iof_en p m1 H0) as (m2 & E2 & T2 & S2 & R2).
    exists m2. repeat split; try congruence.
    eapply touches_trans; eassumption. }
  exists m. split; [reflexivity|]. split; [apply touches_refl|split; reflexivity].
Qed.

Lemma digitalWrite_frame (p val : Z) (m : machine) :
  0 <= p <= 30 ->
  exists m', ThingPlus.digitalWrite p val m = Done tt m'
             /\ touches_only_bit p m m'
             /\ spi m' = spi m /\ trace m' = trace m.
Proof.
  intros Hp. assert (H0 : 0 <= p) by lia. unfold ThingPlus.digitalWrite.
  destruct (negb (val =? 0)); shift_ok Hp.
  - apply or_assign_frame; assumption.
  - apply and_assign_frame; assumption.
Qed.

Lemma digitalRead_frame (p : Z) (m : machine) :
  0 <= p < 32 ->
  ThingPlus.digitalRead p m = Done (Z.land (Z.shiftr (gpio m input_val) p) 1) m.
Proof.
  intros Hp. unfold ThingPlus.digitalRead, bind, gpio_read, u32_shr, defined.
  replace (0 <=? p) with true by (symmetry; apply Z.leb_le; lia).
  replace (p <? 32) with true by (symmetry; apply Z.ltb_lt; lia).
  reflexivity.
Qed.

(** The functions of [EasyREDVIO.h] are those of the ThingPlus header
    behind the pin table. *)
Lemma easy_pinMode_unfold (pin function : Z) (m : machine) :
  EasyREDVIO.pinMode pin function m =
  match EasyREDVIO.pinToGPIO (Z.rem pin 32) with
  | Some g => ThingPlus.pinMode g function m
  | None => Undefined
  end.
Proof.
  unfold EasyREDVIO.pinMode, bind, defined.
  destruct (EasyREDVIO.pinToGPIO (Z.rem pin 32)); reflexivity.
Qed.

Lemma easy_digitalWrite_unfold (pin val : Z) (m : machine) :
  EasyREDVIO.digitalWrite pin val m =
  match EasyREDVIO.pinToGPIO (Z.rem pin 32) with
  | Some g => ThingPlus.digitalWrite g val m
  | None => Undefined
  end.
Proof.
  unfold EasyREDVIO.digitalWrite, bind, defined.
  destruct (EasyREDVIO.pinToGPIO (Z.rem pin 32)); reflexivity.
Qed.

Lemma easy_digitalRead_unfold (pin : Z) (m : machine) :
  EasyREDVIO.digitalRead pin m =
  match EasyREDVIO.pinToGPIO (Z.rem pin 32) with
  | Some g => ThingPlus.digitalRead g m
  | None => Undefined
  end.
Proof.
  unfold EasyREDVIO.digitalRead, bind, defined.
  destruct (EasyREDVIO.pinToGPIO (Z.rem pin 32)); reflexivity.
Qed.

(** The pin table on the connected pins. *)
Lemma pinToGPIO_connected (pin : Z) :
  0 <= pin <= 19 -> pin <> 14 ->
  EasyREDVIO.pinToGPIO pin =
    Some (if pin <=? 7 then pin + 16 else if pin <=? 13 then pin - 8 else pin - 6).
Proof.
  intros Hr Hne.
  assert (H : pin = 0 \/ pin = 1 \/ pin = 2 \/ pin = 3 \/ pin = 4 \/ pin = 5
              \/ pin = 6 \/ pin = 7 \/ pin = 8 \/ pin = 9 \/ pin = 10
              \/ pin = 11 \/ pin = 12 \/ pin = 13 \/ pin = 15 \/ pin = 16
              \/ pin = 17 \/ pin = 18 \/ pin = 19) by lia.
  repeat (destruct H as [-> | H]; [reflexivity|]). subst pin. reflexivity.
Qed.

(* ================================================================== *)
(** ** The pin API *)

(** C10. On the connected pins 0..19 other than 14, [pinToGPIO] returns the
    entry of [digitalPinMapping]: 16..23 for pins 0..7, 0..5 for pins 8..13
    and 9..13 for pins 15..19.  For pin 14 and for every pin from 20 on it
    returns -1.  A negative pin passes the guard, and the array access is
    then outside the table: among the pins that pass the guard, the access
    is in bounds exactly for the non-negative ones. *)
Theorem pinToGPIO_table (pin : Z) :
  (0 <= pin <= 19 -> pin <> 14 ->
   EasyREDVIO.pinToGPIO pin
     = nth_error EasyREDVIO.digitalPinMapping (Z.to_nat pin) /\
   exists g, EasyREDVIO.pinToGPIO pin = Some g /\
             (0 <= pin <= 7 -> g = pin + 16 /\ 16 <= g <= 23) /\
             (8 <= pin <= 13 -> g = pin - 8 /\ 0 <= g <= 5) /\
             (15 <= pin <= 19 -> g = pin - 6 /\ 9 <= g <= 13)) /\
  (pin = 14 \/ 20 <= pin -> EasyREDVIO.pinToGPIO pin = Some (-1)) /\
  (pin < 0 ->
   negb (pin =? 14) && (pin <? 20) = true /\
   array_get EasyREDVIO.digitalPinMapping pin = None /\
   EasyREDVIO.pinToGPIO pin = None) /\
  (pin <> 14 -> pin < 20 ->
   (array_get EasyREDVIO.digitalPinMapping pin <> None <-> 0 <= pin)).
Proof.
  split; [|split; [|split]].
  - intros Hr Hne. split.
    + unfold EasyREDVIO.pinToGPIO, array_get.
      replace (pin =? 14) with false by (symmetry; apply Z.eqb_neq; lia).
      replace (pin <? 20) with true by (symmetry; apply Z.ltb_lt; lia).
      replace (pin <? 0) with false by (symmetry; apply Z.ltb_ge; lia).
      reflexivity.
    + rewrite (pinToGPIO_connected pin Hr Hne). eexists. split; [reflexivity|].
      repeat split;
        repeat match goal with
               | |- context [?a <=? ?b] => destruct (Z.leb_spec a b)
               end; lia.
  - intros H. unfold EasyREDVIO.pinToGPIO. destruct H as [-> | H].
    + reflexivity.
    + replace (pin <? 20) with false by (symmetry; apply Z.ltb_ge; lia).
      rewrite andb_false_r. reflexivity.
  - intros Hneg.
    assert (G : negb (pin =? 14) && (pin <? 20) = true).
    { replace (pin =? 14) with false by (symmetry; apply Z.eqb_neq; lia).
      replace (pin <? 20) with true by (symmetry; apply Z.ltb_lt; lia).
      reflexivity. }
    assert (A : array_get EasyREDVIO.digitalPinMapping pin = None).
    { unfold array_get.
      replace (pin <? 0) with true by (symmetry; apply Z.ltb_lt; lia).
      reflexivity. }
    split; [exact G|]. split; [exact A|].
    unfold EasyREDVIO.pinToGPIO. rewrite G. exact A.
  - intros Hne Hlt. unfold array_get. destruct (Z.ltb_spec pin 0) as [Hn | Hp].
    + split; [intros H; congruence | lia].
    + split; [intros _; exact Hp|]. intros _.
      apply nth_error_Some. simpl. lia.
Qed.

Lemma pinToGPIO_table_witness :
  (EasyREDVIO.pinToGPIO 3 = Some 19 /\
   EasyREDVIO.pinToGPIO 13 = Some 5 /\
   EasyREDVIO.pinToGPIO 19 = Some 13) /\
  EasyREDVIO.pinToGPIO 14 = Some (-1) /\
  EasyREDVIO.pinToGPIO 20 = Some (-1) /\
  EasyREDVIO.pinToGPIO (-1) = None.
Proof.
  split; [split; [|split]|split; [|split]].
  - destruct (pinToGPIO_table 3) as [H _].
    destruct H as [E _]; [lia | lia | exact E].
  - destruct (pinToGPIO_table 13) as [H _].
    destruct H as [E _]; [lia | lia | exact E].
  - destruct (pinToGPIO_table 19) as [H _].
    destruct H as [E _]; [lia | lia | exact E].
  - destruct (pinToGPIO_table 14) as (_ & H & _). apply H. left. reflexivity.
  - destruct (pinToGPIO_table 20) as (_ & H & _). apply H. right. lia.
  - destruct (pinToGPIO_table (-1)) as (_ & _ & H & _).
    destruct H as (_ & _ & E); [lia | exact E].
Defined.

(** C5. For a connected pin (0..13 or 15..19) and any mode or value,
    [pinMode] and [digitalWrite] return and change no bit of any GPIO
    register other than the bit of that pin, and [digitalRead] returns and
    changes nothing.  With [EasyREDVIO_ThingPlus.h] the bit of the pin is
    the pin number itself, with [EasyREDVIO.h] it is the entry of the pin
    table. *)
Theorem valid_pin_single_bit (pin arg : Z) (m : machine) :
  0 <= pin <= 19 -> pin <> 14 ->
  ((exists m', ThingPlus.pinMode pin arg m = Done tt m'
               /\ touches_only_bit pin m m') /\
   (exists m', ThingPlus.digitalWrite pin arg m = Done tt m'
               /\ touches_only_bit pin m m') /\
   (exists v, ThingPlus.digitalRead pin m = Done v m)) /\
  exists g, EasyREDVIO.pinToGPIO pin = Some g /\
    (exists m', EasyREDVIO.pinMode pin arg m = Done tt m'
                /\ touches_only_bit g m m') /\
    (exists m', EasyREDVIO.digitalWrite pin arg m = Done tt m'
                /\ touches_only_bit g m m') /\
    (exists v, EasyREDVIO.digitalRead pin m = Done v m).
Proof.
  intros Hr Hne. split.
  - split; [|split].
    + destruct (pinMode_frame pin arg m) as (m' & E & T & _); [lia|].
      exists m'. split; assumption.
    + destruct (digitalWrite_frame pin arg m) as (m' & E & T & _); [lia|].
      exists m'. split; assumption.
    + eexists. apply digitalRead_frame. lia.
  - pose proof (pinToGPIO_connected pin Hr Hne) as Hg.
    set (g := if pin <=? 7 then pin + 16
              else if pin <=? 13 then pin - 8 else pin - 6) in Hg.
    assert (Hgr : 0 <= g <= 23).
    { subst g. destruct (Z.leb_spec pin 7); [lia|].
      destruct (Z.leb_spec pin 13); lia. }
    assert (Hrem : Z.rem pin 32 = pin) by (apply Z.rem_small; lia).
    exists g. split; [exact Hg|]. split; [|split].
    + rewrite easy_pinMode_unfold, Hrem, Hg.
      destruct (pinMode_frame g arg m) as (m' & E & T & _); [lia|].
      exists m'. split; assumption.
    + rewrite easy_digitalWrite_unfold, Hrem, Hg.
      destruct (digitalWrite_frame g arg m) as (m' & E & T & _); [lia|].
      exists m'. split; assumption.
    + rewrite easy_digitalRead_unfold, Hrem, Hg.
      eexists. apply digitalRead_frame. lia.
Qed.

Lemma valid_pin_single_bit_witness :
  ((exists m', ThingPlus.pinMode 13 OUTPUT reset = Done tt m'
               /\ touches_only_bit 13 reset m') /\
   (exists m', ThingPlus.digitalWrite 13 HIGH reset = Done tt m'
               /\ touches_only_bit 13 reset m') /\
   (exists v, ThingPlus.digitalRead 13 reset = Done v reset)) /\
  (exists m', EasyREDVIO.pinMode 13 OUTPUT reset = Done tt m'
              /\ touches_only_bit 5 reset m').
Proof.
  assert (R : 0 <= 13 <= 19) by lia.
  assert (N : 13 <> 14) by lia.
  destruct (valid_pin_single_bit 13 1 reset R N) as [H1 H2].
  split; [exact H1|].
  destruct H2 as (g & Eg & Hm & _).
  assert (g = 5) by (vm_compute in Eg; congruence). subst g. exact Hm.
Defined.

(** C4, as the code has it.  In [EasyREDVIO_ThingPlus.h] the pin argument
    is the GPIO number and 14 is a pin like any other: [pinMode] and
    [digitalWrite] on pin 14 return and change no bit other than bit 14,
    and [digitalRead] changes nothing.  In [EasyREDVIO.h] pin 14 has the
    table entry -1, and [pinMode] on it changes nothing when the mode is
    none of INPUT, OUTPUT and GPIO_IOF0. *)
Theorem pin14_frame (arg : Z) (m : machine) :
  (exists m', ThingPlus.pinMode 14 arg m = Done tt m'
              /\ touches_only_bit 14 m m') /\
  (exists m', ThingPlus.digitalWrite 14 arg m = Done tt m'
              /\ touches_only_bit 14 m m') /\
  (exists v, ThingPlus.digitalRead 14 m = Done v m) /\
  EasyREDVIO.pinToGPIO 14 = Some (-1) /\
  (arg <> INPUT -> arg <> OUTPUT -> arg <> GPIO_IOF0 ->
   EasyREDVIO.pinMode 14 arg m = Done tt m).
Proof.
  split; [|split; [|split; [|split]]].
  - destruct (pinMode_frame 14 arg m) as (m' & E & T & _); [lia|].
    exists m'. split; assumption.
  - destruct (digitalWrite_frame 14 arg m) as (m' & E & T & _); [lia|].
    exists m'. split; assumption.
  - eexists. apply digitalRead_frame. lia.
  - reflexivity.
  - intros H0 H1 H2. rewrite easy_pinMode_unfold.
    change (EasyREDVIO.pinToGPIO (Z.rem 14 32)) with (Some (-1)).
    unfold ThingPlus.pinMode.
    replace (arg =? INPUT) with false by (symmetry; apply Z.eqb_neq; exact H0).
    replace (arg =? OUTPUT) with false by (symmetry; apply Z.eqb_neq; exact H1).
    replace (arg =? GPIO_IOF0) with false
      by (symmetry; apply Z.eqb_neq; exact H2).
    reflexivity.
Qed.

Lemma pin14_frame_witness :
  (exists m', ThingPlus.pinMode 14 INPUT reset = Done tt m'
              /\ touches_only_bit 14 reset m') /\
  EasyREDVIO.pinMode 14 3 reset = Done tt reset.
Proof.
  destruct (pin14_frame INPUT reset) as (H & _). split; [exact H|].
  destruct (pin14_frame 3 reset) as (_ & _ & _ & _ & H3).
  apply H3; unfold INPUT, OUTPUT, GPIO_IOF0; lia.
Defined.

(** In [EasyREDVIO.h] the entry -1 of pin 14 reaches the shifts unchecked:
    for the three known modes, for [digitalWrite] and for [digitalRead] the
    shift count is negative. *)
Lemma easy_pin14_negative_shift (v : Z) (m : machine) :
  EasyREDVIO.pinMode 14 INPUT m = Undefined /\
  EasyREDVIO.pinMode 14 OUTPUT m = Undefined /\
  EasyREDVIO.pinMode 14 GPIO_IOF0 m = Undefined /\
  EasyREDVIO.digitalWrite 14 v m = Undefined /\
  EasyREDVIO.digitalRead 14 m = Undefined.
Proof.
  repeat split; try reflexivity.
  unfold EasyREDVIO.digitalWrite, bind, defined. cbn.
  destruct (v =? 0); reflexivity.
Qed.

(** C4 as stated fails: with [EasyREDVIO_ThingPlus.h], [pinMode(14, INPUT)]
    on cleared registers sets bit 14 of [input_en]. *)
Lemma pin14_counterexample :
  ~ (forall mode m m',
        ThingPlus.pinMode 14 mode m = Done tt m' ->
        forall r i, same_bit (gpio m) (gpio m') r i).
Proof.
  intros H.
  pose proof (H INPUT reset _ eq_refl input_en 14) as B.
  vm_compute in B. discriminate B.
Qed.

(* ================================================================== *)
(** ** The busy-wait loop *)

Section Polling.

Variable dev : peripheral.

Lemma spins_0 (f : spi_field) (tr : list access) : spins f 0 tr = tr.
Proof. unfold spins. simpl. apply app_nil_r. Qed.

Lemma spins_S (f : spi_field) (k : nat) (tr : list access) :
  spins f (S k) tr = spins f k (tr ++ [Load f 0]).
Proof. unfold spins. simpl. rewrite <- app_assoc. reflexivity. Qed.

Lemma answer_range (tr : list access) (f : spi_field) :
  0 <= answer dev tr f < 2 ^ width f.
Proof.
  unfold answer. apply Z.mod_pos_bound. apply Z.pow_pos_nonneg; [lia|].
  destruct f; simpl; lia.
Qed.

Lemma answer_flag (tr : list access) (f : spi_field) :
  width f = 1 -> answer dev tr f <> 0 -> answer dev tr f = 1.
Proof.
  intros W H. pose proof (answer_range tr f) as R. rewrite W in R.
  change (2 ^ 1) with 2 in R. lia.
Qed.

Lemma first_set_unique (f : spi_field) (tr : list access) (n n' : nat) :
  first_set dev f tr n -> first_set dev f tr n' -> n = n'.
Proof.
  intros [L Hs] [L' Hs'].
  destruct (Nat.lt_trichotomy n n') as [H | [H | H]]; [|exact H|].
  - exfalso. apply Hs. apply L'. exact H.
  - exfalso. apply Hs'. apply L. exact H.
Qed.

Lemma never_not_first (f : spi_field) (tr : list access) (n : nat) :
  never_set dev f tr -> ~ first_set dev f tr n.
Proof. intros N [_ Hs]. apply Hs. apply N. Qed.

Lemma wait_for_S (f : spi_field) (fuel : nat) (m : machine) :
  wait_for dev f (S fuel) m =
  let v := answer dev (trace m) f in
  let m1 := mkMachine (gpio m) (spi m) (trace m ++ [Load f v]) in
  if v =? 0 then wait_for dev f fuel m1 else Done tt m1.
Proof.
  cbn [wait_for]. unfold bind, load. cbv zeta.
  destruct (answer dev (trace m) f =? 0); reflexivity.
Qed.

(** A run of the loop with [fuel] rounds: either the flag is first found
    set at some poll [n < fuel] and the loop ends there, or all [fuel]
    polls found it clear. *)
Lemma wait_for_cases (f : spi_field) (fuel : nat) (m : machine) :
  (exists n, (n < fuel)%nat /\ first_set dev f (trace m) n /\
     wait_for dev f fuel m =
     Done tt (mkMachine (gpio m) (spi m)
                (spins f n (trace m)
                 ++ [Load f (answer dev (spins f n (trace m)) f)])))
  \/ ((forall k, (k < fuel)%nat -> answer dev (spins f k (trace m)) f = 0)
      /\ wait_for dev f fuel m = OutOfFuel).
Proof.
  revert m. induction fuel as [|fuel IH]; intros m.
  - right. split; [intros k Hk; lia | reflexivity].
  - rewrite wait_for_S. cbv zeta.
    destruct (Z.eqb_spec (answer dev (trace m) f) 0) as [E | NE].
    + rewrite E.
      destruct (IH (mkMachine (gpio m) (spi m) (trace m ++ [Load f 0])))
        as [(n & Hn & [L Hs] & R) | [Hz R]]; cbn [gpio spi trace] in *.
      * left. exists (S n). split; [lia|]. split.
        { split.
          - intros [|k] Hk.
            + rewrite spins_0. exact E.
            + rewrite spins_S. apply L. lia.
          - rewrite spins_S. exact Hs. }
        rewrite spins_S. exact R.
      * right. split; [|exact R].
        intros [|k] Hk.
        { rewrite spins_0. exact E. }
        rewrite spins_S. apply Hz. lia.
    + left. exists 0%nat. split; [lia|]. split.
      * split; [intros k Hk; lia | rewrite spins_0; exact NE].
      * rewrite spins_0. reflexivity.
Qed.

End Polling.

(* ================================================================== *)
(** ** One byte: [spiSendReceive] *)

Section Transfer.

Variable dev : peripheral.

Lemma store_run (f : spi_field) (v : Z) (m : machine) :
  store f v m =
  Done tt (mkMachine (gpio m) (upd_spi f (v mod 2 ^ width f) (spi m))
             (trace m ++ [Store f (v mod 2 ^ width f)])).
Proof. reflexivity. Qed.

Lemma load_run (f : spi_field) (m : machine) :
  load dev f m =
  Done (answer dev (trace m) f)
       (mkMachine (gpio m) (spi m)
          (trace m ++ [Load f (answer dev (trace m) f)])).
Proof. reflexivity. Qed.

Lemma bind_out_of_fuel {A B} (c : M A) (k : A -> M B) (m : machine) :
  c m = OutOfFuel -> bind c k m = OutOfFuel.
Proof. intros H. unfold bind. rewrite H. reflexivity. Qed.

(** Every run of [spiSendReceive] with [fuel] rounds per loop: either it
    goes through both loops and returns, or one of the loops used up its
    rounds. *)
Lemma spiSendReceive_cases (fuel : nat) (send : Z) (m : machine) :
  let s := send mod 2 ^ 8 in
  (exists n1 n2, (n1 < fuel)%nat /\ (n2 < fuel)%nat /\
     first_set dev ip_txwm (trace m) n1 /\
     first_set dev ip_rxwm (sent (trace m) n1 s) n2 /\
     spiSendReceive dev fuel send m =
     Done (answer dev (received (trace m) n1 s n2) rxdata_data)
          (after_transfer dev m n1 s n2))
  \/ (spiSendReceive dev fuel send m = OutOfFuel /\
      ((forall k, (k < fuel)%nat ->
                  answer dev (spins ip_txwm k (trace m)) ip_txwm = 0)
       \/ exists n1, (n1 < fuel)%nat /\
            first_set dev ip_txwm (trace m) n1 /\
            forall k, (k < fuel)%nat ->
              answer dev (spins ip_rxwm k (sent (trace m) n1 s)) ip_rxwm
              = 0)).
Proof.
  intros s. unfold spiSendReceive.
  destruct (wait_for_cases dev ip_txwm fuel m)
    as [(n1 & H1 & F1 & E1) | [Z1 E1]].
  2:{ right. split; [apply bind_out_of_fuel; exact E1 | left; exact Z1]. }
  rewrite (answer_flag dev _ ip_txwm eq_refl (proj2 F1)) in E1.
  rewrite (bind_done _ _ _ _ _ E1).
  rewrite (bind_done _ _ _ _ _ (store_run _ _ _)).
  cbn [gpio spi trace width]. fold s.
  replace ((spins ip_txwm n1 (trace m) ++ [Load ip_txwm 1])
           ++ [Store txdata_data s])
    with (sent (trace m) n1 s)
    by (unfold sent; rewrite <- app_assoc; reflexivity).
  set (m2 := mkMachine (gpio m) (upd_spi txdata_data s (spi m))
                       (sent (trace m) n1 s)).
  destruct (wait_for_cases dev ip_rxwm fuel m2)
    as [(n2 & H2 & F2 & E2) | [Z2 E2]].
  2:{ right. split; [apply bind_out_of_fuel; exact E2 | right].
      exists n1. split; [exact H1|]. split; [exact F1 | exact Z2]. }
  rewrite (answer_flag dev _ ip_rxwm eq_refl (proj2 F2)) in E2.
  left. exists n1, n2. repeat (split; [assumption|]).
  rewrite (bind_done _ _ _ _ _ E2).
  rewrite (bind_done _ _ _ _ _ (load_run _ _)).
  unfold ret, after_transfer, received, to_u8. cbn [gpio spi trace m2].
  f_equal. apply Z.mod_small. apply (answer_range dev _ rxdata_data).
Qed.

(** When both flags come up and the fuel reaches that far, the call
    returns. *)
Lemma spiSendReceive_done (fuel : nat) (send : Z) (m : machine)
      (n1 n2 : nat) :
  first_set dev ip_txwm (trace m) n1 ->
  first_set dev ip_rxwm (sent (trace m) n1 (send mod 2 ^ 8)) n2 ->
  (n1 < fuel)%nat -> (n2 < fuel)%nat ->
  spiSendReceive dev fuel send m =
  Done (answer dev (received (trace m) n1 (send mod 2 ^ 8) n2) rxdata_data)
       (after_transfer dev m n1 (send mod 2 ^ 8) n2).
Proof.
  intros F1 F2 H1 H2.
  destruct (spiSendReceive_cases fuel send m)
    as [(k1 & k2 & _ & _ & G1 & G2 & E) | [_ [Z1 | (k1 & _ & G1 & Z2)]]].
  - assert (k1 = n1) by (eapply first_set_unique; eassumption). subst k1.
    assert (k2 = n2) by (eapply first_set_unique; eassumption). subst k2.
    exact E.
  - exfalso. apply (proj2 F1). apply Z1. exact H1.
  - assert (k1 = n1) by (eapply first_set_unique; eassumption). subst k1.
    exfalso. apply (proj2 F2). apply Z2. exact H2.
Qed.

(** A call that returns went through both loops. *)
Lemma spiSendReceive_inv (fuel : nat) (send : Z) (m m' : machine) (r : Z) :
  spiSendReceive dev fuel send m = Done r m' ->
  exists n1 n2, (n1 < fuel)%nat /\ (n2 < fuel)%nat /\
    first_set dev ip_txwm (trace m) n1 /\
    first_set dev ip_rxwm (sent (trace m) n1 (send mod 2 ^ 8)) n2 /\
    r = answer dev (received (trace m) n1 (send mod 2 ^ 8) n2) rxdata_data
    /\ m' = after_transfer dev m n1 (send mod 2 ^ 8) n2.
Proof.
  intros E.
  destruct (spiSendReceive_cases fuel send m)
    as [(n1 & n2 & H1 & H2 & F1 & F2 & E') | [E' _]].
  - rewrite E' in E. injection E as <- <-.
    exists n1, n2. repeat (split; [assumption|]). split; reflexivity.
  - rewrite E' in E. discriminate E.
Qed.

Lemma spiSendReceive_defined (fuel : nat) (send : Z) (m : machine) :
  spiSendReceive dev fuel send m <> Undefined.
Proof.
  destruct (spiSendReceive_cases fuel send m)
    as [(n1 & n2 & _ & _ & _ & _ & E) | [E _]]; rewrite E; discriminate.
Qed.

Lemma spiSendReceive_byte (fuel : nat) (send : Z) (m m' : machine) (r : Z) :
  spiSendReceive dev fuel send m = Done r m' -> 0 <= r < 256.
Proof.
  intros E. apply spiSendReceive_inv in E.
  destruct E as (n1 & n2 & _ & _ & _ & _ & -> & _).
  apply (answer_range dev _ rxdata_data).
Qed.

End Transfer.

Lemma after_transfer_trace (dev : peripheral) (m : machine) (n1 n2 : nat)
      (s : Z) :
  trace (after_transfer dev m n1 s n2) =
  trace m
  ++ repeat (Load ip_txwm 0) n1
  ++ [Load ip_txwm 1; Store txdata_data s]
  ++ repeat (Load ip_rxwm 0) n2
  ++ [Load ip_rxwm 1;
      Load rxdata_data (answer dev (received (trace m) n1 s n2) rxdata_data)].
Proof.
  unfold after_transfer, received, sent, spins. cbn [trace].
  repeat rewrite <- app_assoc. reflexivity.
Qed.

(** C6. [spiSendReceive send], for a byte [send]: when [ip.txwm] is first
    found set at poll [n1] and, after the store, [ip.rxwm] at poll [n2], the
    call returns, and its accesses to SPI1 are, in this order: [n1] loads of
    [ip.txwm] that read 0 and one that reads 1; the store of [send] to
    [txdata.data]; [n2] loads of [ip.rxwm] that read 0 and one that reads 1;
    one load of [rxdata.data], whose byte is the value returned.  Every call
    that returns has this shape. *)
Theorem spiSendReceive_order (dev : peripheral) (fuel : nat) (send : Z)
        (m : machine) :
  0 <= send < 256 ->
  (forall n1 n2,
      first_set dev ip_txwm (trace m) n1 ->
      first_set dev ip_rxwm (sent (trace m) n1 send) n2 ->
      (n1 < fuel)%nat -> (n2 < fuel)%nat ->
      exists r m',
        spiSendReceive dev fuel send m = Done r m' /\
        trace m' =
          trace m
          ++ repeat (Load ip_txwm 0) n1
          ++ [Load ip_txwm 1; Store txdata_data send]
          ++ repeat (Load ip_rxwm 0) n2
          ++ [Load ip_rxwm 1; Load rxdata_data r] /\
        0 <= r < 256 /\
        gpio m' = gpio m /\
        spi m' = upd_spi txdata_data send (spi m)) /\
  (forall r m',
      spiSendReceive dev fuel send m = Done r m' ->
      exists n1 n2,
        first_set dev ip_txwm (trace m) n1 /\
        first_set dev ip_rxwm (sent (trace m) n1 send) n2 /\
        trace m' =
          trace m
          ++ repeat (Load ip_txwm 0) n1
          ++ [Load ip_txwm 1; Store txdata_data send]
          ++ repeat (Load ip_rxwm 0) n2
          ++ [Load ip_rxwm 1; Load rxdata_data r]).
Proof.
  intros Hs.
  assert (S8 : send mod 2 ^ 8 = send) by (apply Z.mod_small; simpl; lia).
  split.
  - intros n1 n2 F1 F2 H1 H2.
    rewrite <- S8 in F2.
    pose proof (spiSendReceive_done dev fuel send m n1 n2 F1 F2 H1 H2) as E.
    rewrite S8 in E.
    eexists. eexists. split; [exact E|].
    split; [apply after_transfer_trace|].
    split; [apply (answer_range dev _ rxdata_data)|].
    split; reflexivity.
  - intros r m' E. apply spiSendReceive_inv in E.
    rewrite S8 in E.
    destruct E as (n1 & n2 & _ & _ & F1 & F2 & -> & ->).
    exists n1, n2. split; [exact F1|]. split; [exact F2|].
    apply after_transfer_trace.
Qed.

(** C7. [spiSendReceive] has no timeout.  Some amount of fuel makes the call
    return exactly when [ip.txwm] is found set at some poll and, after the
    store to [txdata], [ip.rxwm] is found set at some poll.  If [ip.txwm]
    is never found set, or it is but [ip.rxwm] never is, the call is still
    spinning after any number of rounds.  The call has no other outcome, and
    a call that returns does so with the same result for any larger fuel. *)
Theorem spiSendReceive_no_timeout (dev : peripheral) (send : Z) (m : machine) :
  ((exists fuel r m', spiSendReceive dev fuel send m = Done r m') <->
   (exists n1 n2,
       first_set dev ip_txwm (trace m) n1 /\
       first_set dev ip_rxwm (sent (trace m) n1 (to_u8 send)) n2)) /\
  (never_set dev ip_txwm (trace m) ->
   forall fuel, spiSendReceive dev fuel send m = OutOfFuel) /\
  (forall n1,
      first_set dev ip_txwm (trace m) n1 ->
      never_set dev ip_rxwm (sent (trace m) n1 (to_u8 send)) ->
      forall fuel, spiSendReceive dev fuel send m = OutOfFuel) /\
  (forall fuel, spiSendReceive dev fuel send m <> Undefined) /\
  (forall fuel fuel' r m',
      spiSendReceive dev fuel send m = Done r m' ->
      (fuel <= fuel')%nat ->
      spiSendReceive dev fuel' send m = Done r m').
Proof.
  unfold to_u8. split; [|split; [|split; [|split]]].
  - split.
    + intros (fuel & r & m' & E). apply spiSendReceive_inv in E.
      destruct E as (n1 & n2 & _ & _ & F1 & F2 & _).
      exists n1, n2. split; assumption.
    + intros (n1 & n2 & F1 & F2).
      exists (S (Nat.max n1 n2)). eexists. eexists.
      apply (spiSendReceive_done dev _ send m n1 n2 F1 F2); lia.
  - intros N fuel.
    destruct (spiSendReceive_cases dev fuel send m)
      as [(n1 & n2 & _ & _ & F1 & _) | [E _]]; [|exact E].
    exfalso. exact (never_not_first dev _ _ _ N F1).
  - intros n1 F1 N fuel.
    destruct (spiSendReceive_cases dev fuel send m)
      as [(k1 & n2 & _ & _ & G1 & F2 & _) | [E _]]; [|exact E].
    assert (k1 = n1) by (eapply first_set_unique; eassumption). subst k1.
    exfalso. exact (never_not_first dev _ _ _ N F2).
  - intros fuel. apply spiSendReceive_defined.
  - intros fuel fuel' r m' E Hle. apply spiSendReceive_inv in E.
    destruct E as (n1 & n2 & H1 & H2 & F1 & F2 & -> & ->).
    apply spiSendReceive_done; try assumption; lia.
Qed.

Lemma loopback_txwm_second_poll : first_set loopback ip_txwm [] 1.
Proof.
  split.
  - intros k Hk. assert (k = 0%nat) by lia. subst k. reflexivity.
  - vm_compute. discriminate.
Qed.

Lemma loopback_rxwm_second_poll (tr : list access) (s : Z) :
  first_set loopback ip_rxwm (tr ++ [Store txdata_data s]) 1.
Proof.
  split.
  - intros k Hk. assert (k = 0%nat) by lia. subst k.
    rewrite spins_0. unfold answer, loopback. rewrite last_last. reflexivity.
  - unfold spins, answer, loopback. cbn [repeat]. rewrite last_last.
    vm_compute. discriminate.
Qed.

Lemma spiSendReceive_order_witness :
  exists r m',
    spiSendReceive loopback 3 0x5A reset = Done r m' /\
    trace m' =
      [] ++ repeat (Load ip_txwm 0) 1
         ++ [Load ip_txwm 1; Store txdata_data 0x5A]
         ++ repeat (Load ip_rxwm 0) 1
         ++ [Load ip_rxwm 1; Load rxdata_data r].
Proof.
  destruct (spiSendReceive_order loopback 3 0x5A reset) as [H _]; [lia|].
  destruct (H 1%nat 1%nat) as (r & m' & E & T & _).
  - exact loopback_txwm_second_poll.
  - apply (loopback_rxwm_second_poll [Load ip_txwm 0; Load ip_txwm 1]).
  - lia.
  - lia.
  - exists r, m'. split; [exact E | exact T].
Defined.

Lemma spiSendReceive_no_timeout_witness :
  (exists fuel r m', spiSendReceive loopback fuel 0x5A reset = Done r m') /\
  (forall fuel, spiSendReceive dead fuel 0x5A reset = OutOfFuel) /\
  (forall fuel, spiSendReceive deaf fuel 0x5A reset = OutOfFuel).
Proof.
  split; [|split].
  - destruct (spiSendReceive_no_timeout loopback 0x5A reset) as [[_ H] _].
    apply H. exists 1%nat, 1%nat. split.
    + exact loopback_txwm_second_poll.
    + apply (loopback_rxwm_second_poll [Load ip_txwm 0; Load ip_txwm 1]).
  - destruct (spiSendReceive_no_timeout dead 0x5A reset) as (_ & H & _).
    apply H. intros k. reflexivity.
  - destruct (spiSendReceive_no_timeout deaf 0x5A reset) as (_ & _ & H & _).
    apply (H 0%nat).
    + split; [intros k Hk; lia | vm_compute; discriminate].
    + intros k. reflexivity.
Defined.

(* ================================================================== *)
(** ** Bytes and 16-bit words *)

Lemma land_0xFF (x : Z) : Z.land x 0xFF = x mod 2 ^ 8.
Proof. change 0xFF with (Z.ones 8). apply Z.land_ones. lia. Qed.

Lemma land_0xFF_range (x : Z) : 0 <= Z.land x 0xFF < 256.
Proof. rewrite land_0xFF. apply Z.mod_pos_bound. reflexivity. Qed.

Lemma land_0xFF_mod (x : Z) : Z.land x 0xFF mod 2 ^ 8 = Z.land x 0xFF.
Proof. apply Z.mod_small. apply land_0xFF_range. Qed.

Lemma to_u8_byte (x : Z) : 0 <= x < 256 -> to_u8 x = x.
Proof. intros H. apply Z.mod_small. exact H. Qed.

Lemma high_byte_arg (x : Z) :
  to_u8 (Z.shiftr (Z.land x 0xFF00) 8) = Z.land (Z.shiftr x 8) 0xFF.
Proof.
  rewrite Z.shiftr_land. change (Z.shiftr 0xFF00 8) with 0xFF.
  apply to_u8_byte. apply land_0xFF_range.
Qed.

Lemma low_byte_arg (x : Z) : to_u8 (Z.land x 0x00FF) = Z.land x 0xFF.
Proof. apply to_u8_byte. apply land_0xFF_range. Qed.

Lemma lor_range (n a b : Z) :
  0 <= a < 2 ^ n -> 0 <= b < 2 ^ n -> 0 <= Z.lor a b < 2 ^ n.
Proof.
  intros Ha Hb.
  destruct (Z.eq_dec a 0) as [-> | Na]; [rewrite Z.lor_0_l; exact Hb|].
  destruct (Z.eq_dec b 0) as [-> | Nb]; [rewrite Z.lor_0_r; exact Ha|].
  assert (P : 0 <= Z.lor a b) by (apply Z.lor_nonneg; lia).
  split; [exact P|].
  assert (Q : Z.lor a b <> 0).
  { intros E. apply Z.lor_eq_0_iff in E. lia. }
  apply Z.log2_lt_pow2; [lia|].
  rewrite Z.log2_lor by lia.
  apply Z.max_lub_lt; apply Z.log2_lt_pow2; lia.
Qed.

Lemma word_range (a v : Z) :
  0 <= a < 256 -> 0 <= v < 256 -> 0 <= Z.lor (Z.shiftl a 8) v < 2 ^ 16.
Proof.
  intros Ha Hv. apply lor_range.
  - rewrite Z.shiftl_mul_pow2 by lia. change (2 ^ 8) with 256.
    change (2 ^ 16) with 65536. lia.
  - change (2 ^ 16) with 65536. lia.
Qed.

Lemma word_high (a v : Z) :
  0 <= a < 256 -> 0 <= v < 256 ->
  Z.land (Z.shiftr (Z.lor (Z.shiftl a 8) v) 8) 0xFF = a.
Proof.
  intros Ha Hv. rewrite Z.shiftr_lor, Z.shiftr_shiftl_l by lia.
  change (8 - 8) with 0. rewrite Z.shiftl_0_r.
  rewrite (Z.shiftr_div_pow2 v 8) by lia. change (2 ^ 8) with 256.
  rewrite (Z.div_small v 256) by lia. rewrite Z.lor_0_r.
  rewrite land_0xFF. apply Z.mod_small. exact Ha.
Qed.

Lemma word_low (a v : Z) :
  0 <= a < 256 -> 0 <= v < 256 ->
  Z.land (Z.lor (Z.shiftl a 8) v) 0xFF = v.
Proof.
  intros Ha Hv. rewrite Z.land_lor_distr_l, !land_0xFF.
  rewrite Z.shiftl_mul_pow2 by lia. rewrite Z.mod_mul by (simpl; lia).
  rewrite Z.lor_0_l. apply Z.mod_small. exact Hv.
Qed.

Lemma to_u16_bytes (r1 r2 : Z) :
  0 <= r1 < 256 -> 0 <= r2 < 256 ->
  to_u16 (Z.lor (Z.shiftl r1 8) r2) = Z.lor (Z.shiftl r1 8) r2.
Proof. intros H1 H2. apply Z.mod_small. apply word_range; assumption. Qed.

(* ================================================================== *)
(** ** The bytes on the bus *)

Lemma tx_bytes_app (a b : list access) :
  tx_bytes (a ++ b) = tx_bytes a ++ tx_bytes b.
Proof. apply flat_map_app. Qed.

Lemma rx_bytes_app (a b : list access) :
  rx_bytes (a ++ b) = rx_bytes a ++ rx_bytes b.
Proof. apply flat_map_app. Qed.

Lemma tx_bytes_loads (f : spi_field) (v : Z) (n : nat) :
  tx_bytes (repeat (Load f v) n) = [].
Proof. induction n as [|n IH]; [reflexivity | exact IH]. Qed.

Lemma rx_bytes_polls (f : spi_field) (v : Z) (n : nat) :
  f <> rxdata_data -> rx_bytes (repeat (Load f v) n) = [].
Proof.
  intros Hf. induction n as [|n IH]; [reflexivity|].
  cbn [repeat]. change (Load f v :: repeat (Load f v) n)
    with ([Load f v] ++ repeat (Load f v) n).
  rewrite rx_bytes_app, IH. destruct f; try reflexivity. congruence.
Qed.

Section Word.

Variable dev : peripheral.

(** What one byte transfer adds to the bus and leaves in the registers. *)
Lemma spiSendReceive_bytes (fuel : nat) (send : Z) (m m' : machine) (r : Z) :
  spiSendReceive dev fuel send m = Done r m' ->
  tx_bytes (trace m') = tx_bytes (trace m) ++ [send mod 2 ^ 8] /\
  rx_bytes (trace m') = rx_bytes (trace m) ++ [r] /\
  (exists l, trace m' = trace m ++ l) /\
  gpio m' = gpio m /\
  spi m' = upd_spi txdata_data (send mod 2 ^ 8) (spi m).
Proof.
  intros E. apply spiSendReceive_inv in E.
  destruct E as (n1 & n2 & _ & _ & _ & _ & -> & ->).
  rewrite after_transfer_trace.
  split; [|split; [|split; [|split]]].
  - rewrite !tx_bytes_app, !tx_bytes_loads. reflexivity.
  - rewrite !rx_bytes_app, !rx_bytes_polls by discriminate. reflexivity.
  - eexists. reflexivity.
  - reflexivity.
  - reflexivity.
Qed.

(** [spiSendReceive16] with its arguments and its result simplified. *)
Lemma spiSendReceive16_eq (fuel : nat) (x : Z) (m : machine) :
  spiSendReceive16 dev fuel x m =
  (store csmode_mode 2;;
   r1 <- spiSendReceive dev fuel (Z.land (Z.shiftr x 8) 0xFF);;
   r2 <- spiSendReceive dev fuel (Z.land x 0xFF);;
   store csmode_mode 0;;
   ret (Z.lor (Z.shiftl r1 8) r2)) m.
Proof.
  unfold spiSendReceive16. rewrite high_byte_arg, low_byte_arg.
  unfold bind. rewrite store_run.
  destruct (spiSendReceive dev fuel (Z.land (Z.shiftr x 8) 0xFF) _)
    as [r1 m1| |] eqn:E1; try reflexivity.
  destruct (spiSendReceive dev fuel (Z.land x 0xFF) m1)
    as [r2 m2| |] eqn:E2; try reflexivity.
  rewrite to_u16_bytes; [reflexivity| |].
  - eapply spiSendReceive_byte; exact E1.
  - eapply spiSendReceive_byte; exact E2.
Qed.

(** A call of [spiSendReceive16] that returns is made of two byte
    transfers between two stores to [csmode]. *)
Lemma spiSendReceive16_inv (fuel : nat) (x : Z) (m m' : machine) (r : Z) :
  spiSendReceive16 dev fuel x m = Done r m' ->
  exists r1 m1 r2 m2,
    spiSendReceive dev fuel (Z.land (Z.shiftr x 8) 0xFF)
      (mkMachine (gpio m) (upd_spi csmode_mode 2 (spi m))
                 (trace m ++ [Store csmode_mode 2])) = Done r1 m1 /\
    spiSendReceive dev fuel (Z.land x 0xFF) m1 = Done r2 m2 /\
    r = Z.lor (Z.shiftl r1 8) r2 /\
    m' = mkMachine (gpio m2) (upd_spi csmode_mode 0 (spi m2))
                   (trace m2 ++ [Store csmode_mode 0]).
Proof.
  rewrite spiSendReceive16_eq. unfold bind. rewrite store_run.
  change (2 mod 2 ^ width csmode_mode) with 2.
  destruct (spiSendReceive dev fuel (Z.land (Z.shiftr x 8) 0xFF) _)
    as [r1 m1| |] eqn:E1; try discriminate.
  destruct (spiSendReceive dev fuel (Z.land x 0xFF) m1)
    as [r2 m2| |] eqn:E2; try discriminate.
  rewrite store_run. change (0 mod 2 ^ width csmode_mode) with 0.
  unfold ret. intros H. injection H as <- <-.
  exists r1, m1, r2, m2. repeat split; assumption.
Qed.

(** The bus and the registers after a call of [spiSendReceive16]. *)
Lemma spiSendReceive16_bytes (fuel : nat) (x : Z) (m m' : machine) (r : Z) :
  spiSendReceive16 dev fuel x m = Done r m' ->
  exists r1 r2 mid,
    tx_bytes (trace m') =
      tx_bytes (trace m) ++ [Z.land (Z.shiftr x 8) 0xFF; Z.land x 0xFF] /\
    rx_bytes (trace m') = rx_bytes (trace m) ++ [r1; r2] /\
    0 <= r1 < 256 /\ 0 <= r2 < 256 /\
    r = Z.lor (Z.shiftl r1 8) r2 /\
    trace m' = trace m ++ Store csmode_mode 2 :: mid ++ [Store csmode_mode 0]
    /\ gpio m' = gpio m /\ spi m' csmode_mode = 0.
Proof.
  intros E. apply spiSendReceive16_inv in E.
  destruct E as (r1 & m1 & r2 & m2 & E1 & E2 & -> & ->).
  pose proof (spiSendReceive_byte dev _ _ _ _ _ E1) as B1.
  pose proof (spiSendReceive_byte dev _ _ _ _ _ E2) as B2.
  apply spiSendReceive_bytes in E1, E2. cbn [gpio spi trace] in E1.
  destruct E1 as (T1 & R1 & (l1 & L1) & G1 & _).
  destruct E2 as (T2 & R2 & (l2 & L2) & G2 & _).
  rewrite land_0xFF_mod in T1, T2.
  exists r1, r2, (l1 ++ l2). cbn [gpio spi trace].
  split; [|split; [|split; [|split; [|split; [|split; [|split]]]]]].
  - rewrite tx_bytes_app, T2, T1, tx_bytes_app. cbn.
    rewrite !app_nil_r, <- !app_assoc. reflexivity.
  - rewrite rx_bytes_app, R2, R1, rx_bytes_app. cbn.
    rewrite !app_nil_r, <- !app_assoc. reflexivity.
  - exact B1.
  - exact B2.
  - reflexivity.
  - rewrite L2, L1, <- !app_assoc. reflexivity.
  - congruence.
  - reflexivity.
Qed.

End Word.

(* ================================================================== *)
(** ** [spiInit] *)

Lemma pinMode_iof0 (p : Z) (m : machine) :
  0 <= p <= 30 ->
  ThingPlus.pinMode p GPIO_IOF0 m
  = Done tt (mkMachine (iof0 p (gpio m)) (spi m) (trace m)).
Proof.
  intros Hp. unfold ThingPlus.pinMode.
  change (GPIO_IOF0 =? INPUT) with false.
  change (GPIO_IOF0 =? OUTPUT) with false.
  change (GPIO_IOF0 =? GPIO_IOF0) with true. cbv iota.
  shift_ok Hp. unfold bind at 1. unfold and_assign at 1.
  shift_ok Hp. reflexivity.
Qed.

Lemma spiInit_run (clkdivide cpol cpha : Z) (m : machine) :
  exists t,
    spiInit clkdivide cpol cpha m
    = Done tt (mkMachine (spiInit_gpio (gpio m))
                         (spiInit_spi clkdivide cpol cpha (spi m)) t).
Proof.
  eexists. unfold spiInit.
  rewrite (bind_done _ _ _ _ _ (pinMode_iof0 2 _ ltac:(lia)));
    cbn [gpio spi trace].
  rewrite (bind_done _ _ _ _ _ (pinMode_iof0 3 _ ltac:(lia)));
    cbn [gpio spi trace].
  rewrite (bind_done _ _ _ _ _ (pinMode_iof0 4 _ ltac:(lia)));
    cbn [gpio spi trace].
  rewrite (bind_done _ _ _ _ _ (pinMode_iof0 5 _ ltac:(lia)));
    cbn [gpio spi trace].
  repeat (rewrite (bind_done _ _ _ _ _ (store_run _ _ _));
          cbn [gpio spi trace]).
  rewrite store_run. cbn [gpio spi trace]. reflexivity.
Qed.

Lemma testbit_set32 (p x i : Z) :
  0 <= p -> 0 <= i ->
  Z.testbit (set32 p x) i = (i <? 32) && (Z.testbit x i || (p =? i)).
Proof.
  intros Hp Hi. unfold set32, to_u32.
  rewrite Z.testbit_mod_pow2, Z.lor_spec, Z.testbit_mod_pow2 by lia.
  rewrite Z.pow2_bits_eqb by lia.
  destruct (i <? 32), (Z.testbit x i), (p =? i); reflexivity.
Qed.

Lemma testbit_clear32 (p x i : Z) :
  0 <= p -> 0 <= i ->
  Z.testbit (clear32 p x) i = (i <? 32) && Z.testbit x i && negb (p =? i).
Proof.
  intros Hp Hi. unfold clear32, to_u32.
  rewrite Z.testbit_mod_pow2, Z.land_spec, Z.testbit_mod_pow2 by lia.
  rewrite Z.lnot_spec, Z.pow2_bits_eqb by lia.
  destruct (i <? 32), (Z.testbit x i), (p =? i); reflexivity.
Qed.

Lemma spiInit_gpio_idem (g : GPIO) (r : gpio_reg) :
  spiInit_gpio (spiInit_gpio g) r = spiInit_gpio g r.
Proof.
  destruct r; try reflexivity.
  - change (set32 5 (set32 4 (set32 3 (set32 2
              (set32 5 (set32 4 (set32 3 (set32 2 (g iof_en))))))))
            = set32 5 (set32 4 (set32 3 (set32 2 (g iof_en))))).
    apply Z.bits_inj'. intros i Hi. rewrite !testbit_set32 by lia.
    destruct (i <? 32), (Z.testbit (g iof_en) i),
      (2 =? i), (3 =? i), (4 =? i), (5 =? i); reflexivity.
  - change (clear32 5 (clear32 4 (clear32 3 (clear32 2
              (clear32 5 (clear32 4 (clear32 3 (clear32 2 (g iof_sel))))))))
            = clear32 5 (clear32 4 (clear32 3 (clear32 2 (g iof_sel))))).
    apply Z.bits_inj'. intros i Hi. rewrite !testbit_clear32 by lia.
    destruct (i <? 32), (Z.testbit (g iof_sel) i),
      (2 =? i), (3 =? i), (4 =? i), (5 =? i); reflexivity.
Qed.

Lemma spiInit_spi_idem (clkdivide cpol cpha : Z) (s : SPI) (f : spi_field) :
  spiInit_spi clkdivide cpol cpha (spiInit_spi clkdivide cpol cpha s) f
  = spiInit_spi clkdivide cpol cpha s f.
Proof. destruct f; reflexivity. Qed.

(** C8. [spiInit] is idempotent on the register state: called twice in a
    row with the same arguments, it returns both times, and after the second
    call every GPIO register and every SPI field holds what it held after
    the first. *)
Theorem spiInit_idempotent (clkdivide cpol cpha : Z) (m : machine) :
  exists m1 m2,
    spiInit clkdivide cpol cpha m = Done tt m1 /\
    spiInit clkdivide cpol cpha m1 = Done tt m2 /\
    (forall r, gpio m2 r = gpio m1 r) /\
    (forall f, spi m2 f = spi m1 f).
Proof.
  destruct (spiInit_run clkdivide cpol cpha m) as (t1 & E1).
  eexists. destruct (spiInit_run clkdivide cpol cpha
    (mkMachine (spiInit_gpio (gpio m))
               (spiInit_spi clkdivide cpol cpha (spi m)) t1)) as (t2 & E2).
  eexists. split; [exact E1|]. split; [exact E2|]. cbn [gpio spi]. split.
  - apply spiInit_gpio_idem.
  - apply spiInit_spi_idem.
Qed.

(* ================================================================== *)
(** ** Two bytes: [spiSendReceive16] *)

(** C1. For a 16-bit [x], [spiSendReceive16 x] is: the store of HOLD to
    [csmode.mode], the call [spiSendReceive ((x >> 8) & 0xFF)], the call
    [spiSendReceive (x & 0xFF)], the store of AUTO to [csmode.mode], and the
    return of [(r1 << 8) | r2] for the bytes [r1], [r2] the two calls
    returned.  When it returns, exactly these two bytes were stored to
    [txdata], in this order, and exactly two bytes [r1], [r2] were loaded
    from [rxdata]. *)
Theorem spiSendReceive16_two_transfers (dev : peripheral) (fuel : nat)
        (x : Z) (m : machine) :
  0 <= x < 2 ^ 16 ->
  spiSendReceive16 dev fuel x m =
    (store csmode_mode 2;;
     r1 <- spiSendReceive dev fuel (Z.land (Z.shiftr x 8) 0xFF);;
     r2 <- spiSendReceive dev fuel (Z.land x 0xFF);;
     store csmode_mode 0;;
     ret (Z.lor (Z.shiftl r1 8) r2)) m /\
  (forall r m',
      spiSendReceive16 dev fuel x m = Done r m' ->
      exists r1 r2,
        tx_bytes (trace m') =
          tx_bytes (trace m) ++ [Z.land (Z.shiftr x 8) 0xFF; Z.land x 0xFF] /\
        rx_bytes (trace m') = rx_bytes (trace m) ++ [r1; r2] /\
        r = Z.lor (Z.shiftl r1 8) r2).
Proof.
  intros _. split; [apply spiSendReceive16_eq|].
  intros r m' E.
  destruct (spiSendReceive16_bytes dev fuel x m m' r E)
    as (r1 & r2 & mid & T & R & _ & _ & V & _).
  exists r1, r2. split; [exact T|]. split; [exact R | exact V].
Qed.

Lemma spiSendReceive16_two_transfers_witness :
  exists m',
    spiSendReceive16 loopback 3 0xABCD reset = Done 0xABCD m' /\
    tx_bytes (trace m') = [0xAB; 0xCD] /\
    rx_bytes (trace m') = [0xAB; 0xCD].
Proof.
  assert (R : 0 <= 0xABCD < 2 ^ 16) by (simpl; lia).
  destruct (spiSendReceive16_two_transfers loopback 3 0xABCD reset R)
    as [_ H].
  destruct (spiSendReceive16 loopback 3 0xABCD reset) as [r m'| |] eqn:E;
    [|vm_compute in E; discriminate E|vm_compute in E; discriminate E].
  destruct (H r m' eq_refl) as (r1 & r2 & T & Rx & V).
  assert (r = 0xABCD /\ rx_bytes (trace m') = [0xAB; 0xCD]) as [-> Rx'].
  { vm_compute in E. injection E as <- <-. split; reflexivity. }
  exists m'. split; [reflexivity|]. split; [exact T | exact Rx'].
Defined.

(** C9. [spiInit] returns with HOLD (2) in [csmode.mode].  Every call of
    [spiSendReceive16] that returns has stored HOLD to [csmode.mode] as its
    first access and AUTO (0) as its last, and [csmode.mode] holds AUTO on
    return. *)
Theorem csmode_auto_on_return (dev : peripheral) :
  (forall clkdivide cpol cpha m,
      exists m1, spiInit clkdivide cpol cpha m = Done tt m1 /\
                 spi m1 csmode_mode = 2) /\
  (forall fuel x m r m',
      spiSendReceive16 dev fuel x m = Done r m' ->
      spi m' csmode_mode = 0 /\
      exists mid,
        trace m' =
          trace m ++ Store csmode_mode 2 :: mid ++ [Store csmode_mode 0]).
Proof.
  split.
  - intros clkdivide cpol cpha m.
    destruct (spiInit_run clkdivide cpol cpha m) as (t & E).
    eexists. split; [exact E | reflexivity].
  - intros fuel x m r m' E.
    destruct (spiSendReceive16_bytes dev fuel x m m' r E)
      as (r1 & r2 & mid & _ & _ & _ & _ & _ & T & _ & C).
    split; [exact C|]. exists mid. exact T.
Qed.

Lemma csmode_auto_on_return_witness :
  exists m1 r m',
    spiInit 10 1 1 reset = Done tt m1 /\
    spi m1 csmode_mode = 2 /\
    spiSendReceive16 loopback 3 0x2077 m1 = Done r m' /\
    spi m' csmode_mode = 0.
Proof.
  destruct (csmode_auto_on_return loopback) as [I W].
  destruct (I 10 1 1 reset) as (m1 & E1 & C1).
  exists m1.
  destruct (spiSendReceive16 loopback 3 0x2077 m1) as [r m'| |] eqn:E.
  - exists r, m'. destruct (W 3%nat 0x2077 m1 r m' E) as [C _].
    split; [exact E1|]. split; [exact C1|]. split; [reflexivity | exact C].
  - exfalso. vm_compute in E1. injection E1 as <-.
    vm_compute in E. discriminate E.
  - exfalso. vm_compute in E1. injection E1 as <-.
    vm_compute in E. discriminate E.
Defined.

(* ================================================================== *)
(** ** Register access: [spiWrite] and [spiRead] *)

Lemma testbit_byte_high (v i : Z) :
  0 <= v < 256 -> 8 <= i -> Z.testbit v i = false.
Proof.
  intros Hv Hi. rewrite <- (Z.mod_small v (2 ^ 8)) by (simpl; lia).
  apply Z.mod_pow2_bits_high. lia.
Qed.

Lemma word_top_bit (a v : Z) :
  0 <= v < 256 ->
  Z.testbit (Z.lor (Z.shiftl a 8) v) 15 = Z.testbit a 7.
Proof.
  intros Hv. rewrite Z.lor_spec, Z.shiftl_spec by lia.
  rewrite (testbit_byte_high v 15) by lia. apply orb_false_r.
Qed.

Lemma byte_top_bit (a : Z) :
  0 <= a < 256 -> (Z.testbit a 7 = false <-> a < 128).
Proof.
  intros Ha. rewrite Z.testbit_odd, Z.shiftr_div_pow2 by lia.
  change (2 ^ 7) with 128.
  destruct (Z_lt_ge_dec a 128) as [L | G].
  - rewrite Z.div_small by lia. split; [intros _; exact L | reflexivity].
  - replace (a / 128) with 1
      by (apply Z.div_unique with (r := a - 128); lia).
    split; [discriminate | lia].
Qed.

Lemma read_word (a : Z) :
  Z.lor (Z.shiftl a 8) 0x8000 = Z.lor (Z.shiftl (Z.lor a 0x80) 8) 0.
Proof.
  rewrite Z.lor_0_r, Z.shiftl_lor. reflexivity.
Qed.

Lemma read_byte_range (a : Z) : 0 <= a < 256 -> 0 <= Z.lor a 0x80 < 256.
Proof. intros Ha. apply (lor_range 8); simpl; lia. Qed.

(** C3, as the code has it.  For bytes [a] and [v], [spiWrite a v] is the
    call [spiSendReceive16 ((a << 8) | v)] with its result dropped: when it
    returns, the bytes [a] and [v] were transmitted, in this order.  The top
    bit of the transmitted word is bit 7 of [a], which the code does not
    mask: it is clear exactly when [a < 0x80]. *)
Theorem spiWrite_word (dev : peripheral) (fuel : nat) (a v : Z) (m : machine) :
  0 <= a < 256 -> 0 <= v < 256 ->
  spiWrite dev fuel a v m =
    (spiSendReceive16 dev fuel (Z.lor (Z.shiftl a 8) v);; ret tt) m /\
  (forall m', spiWrite dev fuel a v m = Done tt m' ->
              tx_bytes (trace m') = tx_bytes (trace m) ++ [a; v]) /\
  Z.testbit (Z.lor (Z.shiftl a 8) v) 15 = Z.testbit a 7 /\
  (Z.testbit (Z.lor (Z.shiftl a 8) v) 15 = false <-> a < 128).
Proof.
  intros Ha Hv.
  assert (E : spiWrite dev fuel a v m =
              (spiSendReceive16 dev fuel (Z.lor (Z.shiftl a 8) v);; ret tt) m).
  { unfold spiWrite, to_u16. rewrite Z.mod_small by (apply word_range; lia).
    reflexivity. }
  split; [exact E|]. split; [|split].
  - intros m' D. rewrite E in D. unfold bind in D.
    destruct (spiSendReceive16 dev fuel (Z.lor (Z.shiftl a 8) v) m)
      as [r m1| |] eqn:E16; try discriminate D.
    injection D as <-.
    destruct (spiSendReceive16_bytes dev _ _ _ _ _ E16)
      as (r1 & r2 & mid & T & _).
    rewrite word_high, word_low in T by assumption. exact T.
  - apply word_top_bit. exact Hv.
  - rewrite word_top_bit by exact Hv. apply byte_top_bit. exact Ha.
Qed.

Lemma spiWrite_word_witness :
  exists m',
    spiWrite loopback 3 0x20 0x77 reset = Done tt m' /\
    tx_bytes (trace m') = [0x20; 0x77] /\
    Z.testbit (Z.lor (Z.shiftl 0x20 8) 0x77) 15 = false.
Proof.
  assert (Ra : 0 <= 0x20 < 256) by lia.
  assert (Rv : 0 <= 0x77 < 256) by lia.
  destruct (spiWrite_word loopback 3 0x20 0x77 reset Ra Rv)
    as (_ & T & _ & B).
  destruct (spiWrite loopback 3 0x20 0x77 reset) as [[] m'| |] eqn:E;
    [|vm_compute in E; discriminate E|vm_compute in E; discriminate E].
  exists m'. split; [reflexivity|]. split; [exact (T m' eq_refl)|].
  apply B. lia.
Defined.

(** C3 as stated fails: [spiWrite(0x80, 0)] transmits 0x80 first, a word
    whose top bit is set. *)
Lemma spiWrite_counterexample :
  ~ (forall dev fuel a v m m',
        0 <= a < 256 -> 0 <= v < 256 ->
        spiWrite dev fuel a v m = Done tt m' ->
        exists b1 b2,
          tx_bytes (trace m') = tx_bytes (trace m) ++ [b1; b2] /\
          Z.testbit b1 7 = false).
Proof.
  intros H.
  destruct (spiWrite loopback 3 0x80 0 reset) as [[] m'| |] eqn:E;
    [|vm_compute in E; discriminate E|vm_compute in E; discriminate E].
  destruct (H loopback 3%nat 0x80 0 reset m' ltac:(lia) ltac:(lia) E)
    as (b1 & b2 & T & B).
  vm_compute in E. injection E as <-. vm_compute in T.
  injection T as <- <-. vm_compute in B. discriminate B.
Qed.

(** C2, as the code has it.  For a byte [a], [spiRead a] is the call
    [spiSendReceive16 ((a << 8) | 0x8000)] followed by the return of the low
    byte of its result.  The top bit of that word is set whatever [a] is.
    When the call returns, the bytes [a | 0x80] and 0x00 were transmitted,
    in this order, and the value returned is the second of the two bytes
    received; the first is dropped. *)
Theorem spiRead_low_byte (dev : peripheral) (fuel : nat) (a : Z)
        (m : machine) :
  0 <= a < 256 ->
  spiRead dev fuel a m =
    (w <- spiSendReceive16 dev fuel (Z.lor (Z.shiftl a 8) 0x8000);;
     ret (Z.land w 0xFF)) m /\
  Z.testbit (Z.lor (Z.shiftl a 8) 0x8000) 15 = true /\
  (forall r m',
      spiRead dev fuel a m = Done r m' ->
      exists r1,
        tx_bytes (trace m') = tx_bytes (trace m) ++ [Z.lor a 0x80; 0] /\
        rx_bytes (trace m') = rx_bytes (trace m) ++ [r1; r]).
Proof.
  intros Ha.
  assert (W : to_u16 (Z.lor (Z.shiftl a 8) (Z.shiftl 1 15))
              = Z.lor (Z.shiftl a 8) 0x8000).
  { change (Z.shiftl 1 15) with 0x8000. apply Z.mod_small.
    apply lor_range.
    - rewrite Z.shiftl_mul_pow2 by lia. change (2 ^ 8) with 256.
      change (2 ^ 16) with 65536. lia.
    - simpl. lia. }
  assert (E : spiRead dev fuel a m =
              (w <- spiSendReceive16 dev fuel (Z.lor (Z.shiftl a 8) 0x8000);;
               ret (Z.land w 0xFF)) m).
  { unfold spiRead. rewrite W. unfold bind.
    destruct (spiSendReceive16 dev fuel _ m) as [w m1| |]; try reflexivity.
    unfold to_u8. rewrite land_0xFF. reflexivity. }
  split; [exact E|]. split.
  - rewrite Z.lor_spec. change (Z.testbit 0x8000 15) with true.
    apply orb_true_r.
  - intros r m' D. rewrite E in D. unfold bind in D.
    destruct (spiSendReceive16 dev fuel (Z.lor (Z.shiftl a 8) 0x8000) m)
      as [w m1| |] eqn:E16; try discriminate D.
    unfold ret in D. injection D as <- <-.
    destruct (spiSendReceive16_bytes dev _ _ _ _ _ E16)
      as (r1 & r2 & mid & T & R & B1 & B2 & -> & _).
    rewrite read_word in T.
    rewrite word_high, word_low in T by (try apply read_byte_range; lia).
    rewrite word_low by assumption.
    exists r1. split; [exact T | exact R].
Qed.

Lemma spiRead_low_byte_witness :
  exists r m',
    spiRead loopback 3 0x0F reset = Done r m' /\
    tx_bytes (trace m') = [0x8F; 0] /\
    Z.testbit (Z.lor (Z.shiftl 0x0F 8) 0x8000) 15 = true.
Proof.
  assert (Ra : 0 <= 0x0F < 256) by lia.
  destruct (spiRead_low_byte loopback 3 0x0F reset Ra) as (_ & B & T).
  destruct (spiRead loopback 3 0x0F reset) as [r m'| |] eqn:E;
    [|vm_compute in E; discriminate E|vm_compute in E; discriminate E].
  destruct (T r m' eq_refl) as (r1 & Tx & _).
  exists r, m'. split; [reflexivity|]. split; [exact Tx | exact B].
Defined.

(** C2 as stated fails: against a peripheral that echoes what it is sent,
    [spiRead(0x0F)] returns 0x00, the echo of the low byte it transmits,
    while the low byte of [spiSendReceive16((0x0F << 8) | 0x8000 | 0x0F)]
    is 0x0F. *)
Lemma spiRead_counterexample :
  ~ (forall dev fuel a m r m1 w m2,
        0 <= a < 256 ->
        spiRead dev fuel a m = Done r m1 ->
        spiSendReceive16 dev fuel
          (Z.lor (Z.lor (Z.shiftl a 8) 0x8000) a) m = Done w m2 ->
        r = Z.land w 0xFF).
Proof.
  intros H.
  destruct (spiRead loopback 3 0x0F reset) as [r m1| |] eqn:E1;
    [|vm_compute in E1; discriminate E1|vm_compute in E1; discriminate E1].
  destruct (spiSendReceive16 loopback 3
              (Z.lor (Z.lor (Z.shiftl 0x0F 8) 0x8000) 0x0F) reset)
    as [w m2| |] eqn:E2;
    [|vm_compute in E2; discriminate E2|vm_compute in E2; discriminate E2].
  pose proof (H loopback 3%nat 0x0F reset r m1 w m2 ltac:(lia) E1 E2) as V.
  vm_compute in E1. injection E1 as <- <-.
  vm_compute in E2. injection E2 as <- <-.
  vm_compute in V. discriminate V.
Qed.

(* ================================================================== *)
(** * Further properties of the pin API *)

(** ** What the read-modify-write statements leave in the pin's bit *)

Lemma set32_range (p x : Z) : 0 <= set32 p x < 2 ^ 32.
Proof. unfold set32, to_u32. apply Z.mod_pos_bound. reflexivity. Qed.

Lemma clear32_range (p x : Z) : 0 <= clear32 p x < 2 ^ 32.
Proof. unfold clear32, to_u32. apply Z.mod_pos_bound. reflexivity. Qed.

Lemma set32_own_bit (p x : Z) :
  0 <= p < 32 -> Z.testbit (set32 p x) p = true.
Proof.
  intros Hp. rewrite testbit_set32 by lia.
  replace (p <? 32) with true by (symmetry; apply Z.ltb_lt; lia).
  rewrite Z.eqb_refl. apply orb_true_r.
Qed.

Lemma clear32_own_bit (p x : Z) :
  0 <= p -> Z.testbit (clear32 p x) p = false.
Proof.
  intros Hp. rewrite testbit_clear32 by lia.
  rewrite Z.eqb_refl. apply andb_false_r.
Qed.

Lemma set32_keeps_ones (p x i : Z) :
  0 <= p -> 0 <= i < 32 ->
  Z.testbit x i = true -> Z.testbit (set32 p x) i = true.
Proof.
  intros Hp Hi Hx. rewrite testbit_set32, Hx by lia.
  replace (i <? 32) with true by (symmetry; apply Z.ltb_lt; lia).
  reflexivity.
Qed.

Lemma upd_gpio_same (r : gpio_reg) (v : Z) (g : GPIO) : upd_gpio r v g r = v.
Proof.
  unfold upd_gpio. destruct (gpio_reg_eq_dec r r); [reflexivity | congruence].
Qed.

Lemma upd_gpio_other (r r' : gpio_reg) (v : Z) (g : GPIO) :
  r' <> r -> upd_gpio r v g r' = g r'.
Proof.
  intros H. unfold upd_gpio.
  destruct (gpio_reg_eq_dec r' r); [congruence | reflexivity].
Qed.

Lemma pinMode_input_run (p : Z) (m : machine) :
  0 <= p <= 30 ->
  ThingPlus.pinMode p INPUT m
  = Done tt (mkMachine (upd_gpio input_en (set32 p (gpio m input_en)) (gpio m))
                       (spi m) (trace m)).
Proof.
  intros Hp. unfold ThingPlus.pinMode.
  change (INPUT =? INPUT) with true. cbv iota.
  shift_ok Hp. reflexivity.
Qed.

Lemma pinMode_output_run (p : Z) (m : machine) :
  0 <= p <= 30 ->
  ThingPlus.pinMode p OUTPUT m
  = Done tt (mkMachine
               (upd_gpio iof_en (clear32 p (gpio m iof_en))
                  (upd_gpio output_en (set32 p (gpio m output_en)) (gpio m)))
               (spi m) (trace m)).
Proof.
  intros Hp. unfold ThingPlus.pinMode.
  change (OUTPUT =? INPUT) with false.
  change (OUTPUT =? OUTPUT) with true. cbv iota.
  shift_ok Hp. unfold bind at 1. unfold or_assign at 1.
  shift_ok Hp. reflexivity.
Qed.

Lemma pinMode_other_run (p function : Z) (m : machine) :
  function <> INPUT -> function <> OUTPUT -> function <> GPIO_IOF0 ->
  ThingPlus.pinMode p function m = Done tt m.
Proof.
  intros H0 H1 H2. unfold ThingPlus.pinMode.
  replace (function =? INPUT) with false
    by (symmetry; apply Z.eqb_neq; exact H0).
  replace (function =? OUTPUT) with false
    by (symmetry; apply Z.eqb_neq; exact H1).
  replace (function =? GPIO_IOF0) with false
    by (symmetry; apply Z.eqb_neq; exact H2).
  reflexivity.
Qed.

Lemma digitalWrite_run (p val : Z) (m : machine) :
  0 <= p <= 30 ->
  ThingPlus.digitalWrite p val m
  = Done tt (mkMachine
               (upd_gpio output_val
                  (if val =? 0 then clear32 p (gpio m output_val)
                   else set32 p (gpio m output_val)) (gpio m))
               (spi m) (trace m)).
Proof.
  intros Hp. unfold ThingPlus.digitalWrite.
  destruct (val =? 0); cbn [negb]; shift_ok Hp; reflexivity.
Qed.

(** X1. [pinMode] of the ThingPlus header on a pin 0..30.  INPUT sets the
    pin's bit of [input_en] and changes no other register.  OUTPUT sets the
    bit of [output_en], clears the bit of [iof_en] and changes no other
    register.  GPIO_IOF0 clears the bit of [iof_sel], sets the bit of
    [iof_en] and changes no other register.  The SPI block is not
    accessed. *)
Theorem pinMode_sets_function (pin : Z) (m : machine) :
  0 <= pin <= 30 ->
  (exists m',
      ThingPlus.pinMode pin INPUT m = Done tt m' /\
      Z.testbit (gpio m' input_en) pin = true /\
      (forall r, r <> input_en -> gpio m' r = gpio m r) /\
      spi m' = spi m /\ trace m' = trace m) /\
  (exists m',
      ThingPlus.pinMode pin OUTPUT m = Done tt m' /\
      Z.testbit (gpio m' output_en) pin = true /\
      Z.testbit (gpio m' iof_en) pin = false /\
      (forall r, r <> output_en -> r <> iof_en -> gpio m' r = gpio m r) /\
      spi m' = spi m /\ trace m' = trace m) /\
  (exists m',
      ThingPlus.pinMode pin GPIO_IOF0 m = Done tt m' /\
      Z.testbit (gpio m' iof_sel) pin = false /\
      Z.testbit (gpio m' iof_en) pin = true /\
      (forall r, r <> iof_sel -> r <> iof_en -> gpio m' r = gpio m r) /\
      spi m' = spi m /\ trace m' = trace m).
Proof.
  intros Hp. split; [|split].
  - eexists. split; [apply pinMode_input_run; exact Hp|]. cbn [gpio spi trace].
    split; [rewrite upd_gpio_same; apply set32_own_bit; lia|].
    split; [|split; reflexivity].
    intros r Hr. apply upd_gpio_other. exact Hr.
  - eexists. split; [apply pinMode_output_run; exact Hp|].
    cbn [gpio spi trace].
    split; [rewrite upd_gpio_other, upd_gpio_same by discriminate;
            apply set32_own_bit; lia|].
    split; [rewrite upd_gpio_same; apply clear32_own_bit; lia|].
    split; [|split; reflexivity].
    intros r H1 H2. rewrite !upd_gpio_other by assumption. reflexivity.
  - eexists. split; [apply pinMode_iof0; exact Hp|]. unfold iof0.
    cbn [gpio spi trace].
    split; [rewrite upd_gpio_other, upd_gpio_same by discriminate;
            apply clear32_own_bit; lia|].
    split; [rewrite upd_gpio_same; apply set32_own_bit; lia|].
    split; [|split; reflexivity].
    intros r H1 H2. rewrite !upd_gpio_other by assumption. reflexivity.
Qed.

Lemma pinMode_sets_function_witness :
  exists m',
    ThingPlus.pinMode 5 OUTPUT reset = Done tt m' /\
    Z.testbit (gpio m' output_en) 5 = true /\
    Z.testbit (gpio m' iof_en) 5 = false.
Proof.
  assert (R : 0 <= 5 <= 30) by lia.
  destruct (pinMode_sets_function 5 reset R)
    as (_ & (m' & E & B1 & B2 & _) & _).
  exists m'. split; [exact E|]. split; [exact B1 | exact B2].
Defined.

(** X2. [pinMode] of the ThingPlus header never disables anything: whatever
    the pin and the mode, a bit that is set in [input_en] or in [output_en]
    before a call that returns is still set after it.  So [pinMode(p, INPUT)]
    after [pinMode(p, OUTPUT)] leaves the pin enabled as an output too. *)
Theorem pinMode_never_disables (pin function : Z) (m m' : machine) (i : Z) :
  0 <= i < 32 ->
  ThingPlus.pinMode pin function m = Done tt m' ->
  (Z.testbit (gpio m input_en) i = true ->
   Z.testbit (gpio m' input_en) i = true) /\
  (Z.testbit (gpio m output_en) i = true ->
   Z.testbit (gpio m' output_en) i = true).
Proof.
  intros Hi E.
  destruct (Z_le_gt_dec 0 pin) as [L | G];
    [destruct (Z_le_gt_dec pin 30) as [U | G]|].
  - assert (Hp : 0 <= pin <= 30) by lia.
    destruct (Z.eq_dec function INPUT) as [-> | N0].
    { rewrite (pinMode_input_run pin m Hp) in E. injection E as <-.
      cbn [gpio]. rewrite upd_gpio_same, upd_gpio_other by discriminate.
      split; [apply set32_keeps_ones; lia | tauto]. }
    destruct (Z.eq_dec function OUTPUT) as [-> | N1].
    { rewrite (pinMode_output_run pin m Hp) in E. injection E as <-.
      cbn [gpio]. rewrite !upd_gpio_other by discriminate.
      rewrite upd_gpio_same.
      split; [tauto | apply set32_keeps_ones; lia]. }
    destruct (Z.eq_dec function GPIO_IOF0) as [-> | N2].
    { rewrite (pinMode_iof0 pin m Hp) in E. injection E as <-.
      unfold iof0. cbn [gpio]. rewrite !upd_gpio_other by discriminate.
      tauto. }
    rewrite (pinMode_other_run pin function m N0 N1 N2) in E.
    injection E as <-. tauto.
  - (* pin > 30: a call that returns had an unknown mode or shifted by 31 *)
    unfold ThingPlus.pinMode in E.
    assert (S : int_shl 1 pin = None).
    { unfold int_shl. rewrite Z.shiftl_1_l.
      destruct (Z_lt_ge_dec pin 32) as [H32 | H32].
      - assert (pin = 31) by lia. subst pin. reflexivity.
      - replace (pin <? 32) with false by (symmetry; apply Z.ltb_ge; lia).
        rewrite andb_false_r. reflexivity. }
    unfold bind, defined in E. rewrite S in E.
    destruct (function =? INPUT); [discriminate E|].
    destruct (function =? OUTPUT); [discriminate E|].
    destruct (function =? GPIO_IOF0); [discriminate E|].
    injection E as <-. tauto.
  - unfold ThingPlus.pinMode in E.
    unfold bind, defined in E. rewrite (int_shl_neg 1 pin) in E by lia.
    destruct (function =? INPUT); [discriminate E|].
    destruct (function =? OUTPUT); [discriminate E|].
    destruct (function =? GPIO_IOF0); [discriminate E|].
    injection E as <-. tauto.
Qed.

Lemma pinMode_never_disables_witness :
  exists m1 m2,
    ThingPlus.pinMode 13 OUTPUT reset = Done tt m1 /\
    ThingPlus.pinMode 13 INPUT m1 = Done tt m2 /\
    Z.testbit (gpio m2 output_en) 13 = true.
Proof.
  destruct (ThingPlus.pinMode 13 OUTPUT reset) as [[] m1| |] eqn:E1;
    [|vm_compute in E1; discriminate E1|vm_compute in E1; discriminate E1].
  destruct (ThingPlus.pinMode 13 INPUT m1) as [[] m2| |] eqn:E2;
    [|vm_compute in E1; injection E1 as <-; vm_compute in E2; discriminate E2
     |vm_compute in E1; injection E1 as <-; vm_compute in E2; discriminate E2].
  exists m1, m2. split; [reflexivity|]. split; [exact E2|].
  assert (R : 0 <= 13 < 32) by lia.
  destruct (pinMode_never_disables 13 INPUT m1 m2 13 R E2) as [_ H].
  apply H. vm_compute in E1. injection E1 as <-. reflexivity.
Defined.

(** X3. [digitalWrite] of the ThingPlus header on a pin 0..30 returns,
    leaves the pin's bit of [output_val] set exactly when [val] is not 0,
    and changes no other register. *)
Theorem digitalWrite_sets_level (pin val : Z) (m : machine) :
  0 <= pin <= 30 ->
  exists m',
    ThingPlus.digitalWrite pin val m = Done tt m' /\
    Z.testbit (gpio m' output_val) pin = negb (val =? 0) /\
    (forall r, r <> output_val -> gpio m' r = gpio m r) /\
    spi m' = spi m /\ trace m' = trace m.
Proof.
  intros Hp. eexists. split; [apply digitalWrite_run; exact Hp|].
  cbn [gpio spi trace]. split; [|split; [|split; reflexivity]].
  - rewrite upd_gpio_same. destruct (val =? 0); cbn [negb].
    + apply clear32_own_bit. lia.
    + apply set32_own_bit. lia.
  - intros r Hr. apply upd_gpio_other. exact Hr.
Qed.

Lemma digitalWrite_sets_level_witness :
  exists m',
    ThingPlus.digitalWrite 5 HIGH reset = Done tt m' /\
    Z.testbit (gpio m' output_val) 5 = true.
Proof.
  assert (R : 0 <= 5 <= 30) by lia.
  destruct (digitalWrite_sets_level 5 HIGH reset R) as (m' & E & B & _).
  exists m'. split; [exact E | exact B].
Defined.

Lemma set32_clear32 (p x : Z) : 0 <= p -> set32 p (clear32 p x) = set32 p x.
Proof.
  intros Hp. apply Z.bits_inj'. intros i Hi.
  rewrite !testbit_set32, testbit_clear32 by lia.
  destruct (i <? 32), (Z.testbit x i), (p =? i); reflexivity.
Qed.

Lemma clear32_set32 (p x : Z) : 0 <= p -> clear32 p (set32 p x) = clear32 p x.
Proof.
  intros Hp. apply Z.bits_inj'. intros i Hi.
  rewrite !testbit_clear32, testbit_set32 by lia.
  destruct (i <? 32), (Z.testbit x i), (p =? i); reflexivity.
Qed.

Lemma set32_set32 (p x : Z) : 0 <= p -> set32 p (set32 p x) = set32 p x.
Proof.
  intros Hp. apply Z.bits_inj'. intros i Hi.
  rewrite !testbit_set32 by lia.
  destruct (i <? 32), (Z.testbit x i), (p =? i); reflexivity.
Qed.

Lemma clear32_clear32 (p x : Z) :
  0 <= p -> clear32 p (clear32 p x) = clear32 p x.
Proof.
  intros Hp. apply Z.bits_inj'. intros i Hi.
  rewrite !testbit_clear32 by lia.
  destruct (i <? 32), (Z.testbit x i), (p =? i); reflexivity.
Qed.

(** X4. The last [digitalWrite] wins: on a pin 0..30, two writes in a row
    leave every GPIO register as the second write alone does. *)
Theorem digitalWrite_last_wins (pin v1 v2 : Z) (m : machine) :
  0 <= pin <= 30 ->
  exists m12 m2,
    (ThingPlus.digitalWrite pin v1;; ThingPlus.digitalWrite pin v2) m
      = Done tt m12 /\
    ThingPlus.digitalWrite pin v2 m = Done tt m2 /\
    forall r, gpio m12 r = gpio m2 r.
Proof.
  intros Hp. assert (H0 : 0 <= pin) by lia.
  eexists. eexists. split; [|split].
  - rewrite (bind_done _ _ _ _ _ (digitalWrite_run pin v1 m Hp)).
    apply digitalWrite_run. exact Hp.
  - apply digitalWrite_run. exact Hp.
  - intros r. cbn [gpio]. unfold upd_gpio.
    destruct (gpio_reg_eq_dec r output_val) as [-> | N]; [|reflexivity].
    destruct (gpio_reg_eq_dec output_val output_val) as [_ | N];
      [|congruence].
    destruct (v1 =? 0), (v2 =? 0);
      auto using set32_clear32, clear32_set32, set32_set32, clear32_clear32.
Qed.

Lemma digitalWrite_last_wins_witness :
  exists m12 m2,
    (ThingPlus.digitalWrite 13 HIGH;; ThingPlus.digitalWrite 13 LOW) reset
      = Done tt m12 /\
    ThingPlus.digitalWrite 13 LOW reset = Done tt m2 /\
    forall r, gpio m12 r = gpio m2 r.
Proof.
  apply (digitalWrite_last_wins 13 HIGH LOW reset). lia.
Defined.

Lemma land_1_bit (x : Z) : Z.land x 1 = Z.b2z (Z.testbit x 0).
Proof.
  change 1 with (Z.ones 1). rewrite Z.land_ones by lia.
  change (2 ^ 1) with 2. symmetry. apply Z.bit0_mod.
Qed.

(** X5. [digitalRead] of the ThingPlus header on a pin 0..31 returns the
    pin's bit of [input_val], as 0 or 1, and changes nothing. *)
Theorem digitalRead_bit (pin : Z) (m : machine) :
  0 <= pin < 32 ->
  ThingPlus.digitalRead pin m
  = Done (Z.b2z (Z.testbit (gpio m input_val) pin)) m.
Proof.
  intros Hp. rewrite digitalRead_frame by exact Hp.
  rewrite land_1_bit, Z.shiftr_spec by lia. reflexivity.
Qed.

Lemma digitalRead_bit_witness :
  ThingPlus.digitalRead 31 reset
  = Done (Z.b2z (Z.testbit (gpio reset input_val) 31)) reset.
Proof. apply (digitalRead_bit 31 reset). lia. Defined.

Lemma int_shl_out_of_range (a p : Z) : p < 0 \/ 32 <= p -> int_shl a p = None.
Proof.
  intros [H | H]; [apply int_shl_neg; exact H|].
  unfold int_shl.
  replace (p <? 32) with false by (symmetry; apply Z.ltb_ge; lia).
  rewrite andb_false_r. reflexivity.
Qed.

Lemma thingplus_pin_unchecked_aux (pin : Z) (m : machine) :
  pin < 0 \/ 32 <= pin ->
  ThingPlus.pinMode pin INPUT m = Undefined /\
  ThingPlus.pinMode pin OUTPUT m = Undefined /\
  ThingPlus.pinMode pin GPIO_IOF0 m = Undefined /\
  (forall val, ThingPlus.digitalWrite pin val m = Undefined) /\
  ThingPlus.digitalRead pin m = Undefined.
Proof.
  intros H. pose proof (int_shl_out_of_range 1 pin H) as S.
  unfold ThingPlus.pinMode, ThingPlus.digitalWrite, ThingPlus.digitalRead.
  change (INPUT =? INPUT) with true.
  change (OUTPUT =? INPUT) with false.
  change (OUTPUT =? OUTPUT) with true.
  change (GPIO_IOF0 =? INPUT) with false.
  change (GPIO_IOF0 =? OUTPUT) with false.
  change (GPIO_IOF0 =? GPIO_IOF0) with true. cbv iota.
  unfold bind, defined, gpio_read. rewrite S.
  repeat split.
  - intros val. destruct (negb (val =? 0)); reflexivity.
  - unfold u32_shr. destruct H as [H | H].
    + replace (0 <=? pin) with false by (symmetry; apply Z.leb_gt; lia).
      reflexivity.
    + replace (pin <? 32) with false by (symmetry; apply Z.ltb_ge; lia).
      rewrite andb_false_r. reflexivity.
Qed.

(** X6. The ThingPlus header does not check the pin.  For a pin below 0 or
    from 32 on, [pinMode] with one of the three modes, [digitalWrite] and
    [digitalRead] shift by a count outside 0..31, which is undefined.  With
    any other mode [pinMode] does nothing, whatever the pin. *)
Theorem thingplus_pin_unchecked (pin : Z) (m : machine) :
  (pin < 0 \/ 32 <= pin ->
   ThingPlus.pinMode pin INPUT m = Undefined /\
   ThingPlus.pinMode pin OUTPUT m = Undefined /\
   ThingPlus.pinMode pin GPIO_IOF0 m = Undefined /\
   (forall val, ThingPlus.digitalWrite pin val m = Undefined) /\
   ThingPlus.digitalRead pin m = Undefined) /\
  (forall function,
      function <> INPUT -> function <> OUTPUT -> function <> GPIO_IOF0 ->
      ThingPlus.pinMode pin function m = Done tt m).
Proof.
  split.
  - apply thingplus_pin_unchecked_aux.
  - intros function. apply pinMode_other_run.
Qed.

Lemma thingplus_pin_unchecked_witness :
  ThingPlus.pinMode 32 OUTPUT reset = Undefined /\
  ThingPlus.digitalRead (-1) reset = Undefined /\
  ThingPlus.pinMode 32 7 reset = Done tt reset.
Proof.
  destruct (thingplus_pin_unchecked 32 reset) as [H U].
  destruct H as (_ & O & _); [right; lia|].
  destruct (thingplus_pin_unchecked (-1) reset) as [H' _].
  destruct H' as (_ & _ & _ & _ & R); [left; lia|].
  split; [exact O|]. split; [exact R|].
  apply U; unfold INPUT, OUTPUT, GPIO_IOF0; lia.
Defined.

(* ================================================================== *)
(** ** The pin table of [EasyREDVIO.h] *)

Lemma pinToGPIO_connected_range (pin : Z) :
  0 <= pin <= 19 -> pin <> 14 ->
  exists g, EasyREDVIO.pinToGPIO pin = Some g /\ 0 <= g <= 23 /\
            g = (if pin <=? 7 then pin + 16
                 else if pin <=? 13 then pin - 8 else pin - 6).
Proof.
  intros Hr Hne. eexists. split; [apply pinToGPIO_connected; assumption|].
  split; [|reflexivity].
  destruct (Z.leb_spec pin 7); [lia|]. destruct (Z.leb_spec pin 13); lia.
Qed.

Lemma pinToGPIO_unconnected (pin : Z) :
  pin = 14 \/ 20 <= pin -> EasyREDVIO.pinToGPIO pin = Some (-1).
Proof.
  intros [-> | H]; [reflexivity|]. unfold EasyREDVIO.pinToGPIO.
  replace (pin <? 20) with false by (symmetry; apply Z.ltb_ge; lia).
  rewrite andb_false_r. reflexivity.
Qed.

Lemma pinToGPIO_negative (pin : Z) :
  pin < 0 -> EasyREDVIO.pinToGPIO pin = None.
Proof.
  intros H. unfold EasyREDVIO.pinToGPIO, array_get.
  replace (pin =? 14) with false by (symmetry; apply Z.eqb_neq; lia).
  replace (pin <? 20) with true by (symmetry; apply Z.ltb_lt; lia).
  replace (pin <? 0) with true by (symmetry; apply Z.ltb_lt; lia).
  reflexivity.
Qed.

(** X7. The pin table is injective on the connected pins: two different
    pins among 0..13 and 15..19 never share a GPIO bit, and every such pin
    has a bit in 0..23. *)
Theorem pinToGPIO_injective (p q : Z) :
  0 <= p <= 19 -> p <> 14 -> 0 <= q <= 19 -> q <> 14 ->
  (exists g, EasyREDVIO.pinToGPIO p = Some g /\ 0 <= g <= 23) /\
  (EasyREDVIO.pinToGPIO p = EasyREDVIO.pinToGPIO q -> p = q).
Proof.
  intros Hp Np Hq Nq.
  destruct (pinToGPIO_connected_range p Hp Np) as (g & Eg & Rg & Vg).
  split; [exists g; split; assumption|].
  rewrite (pinToGPIO_connected p Hp Np), (pinToGPIO_connected q Hq Nq).
  intros E. injection E as E.
  destruct (Z.leb_spec p 7), (Z.leb_spec p 13),
    (Z.leb_spec q 7), (Z.leb_spec q 13); lia.
Qed.

Lemma pinToGPIO_injective_witness :
  (exists g, EasyREDVIO.pinToGPIO 13 = Some g /\ 0 <= g <= 23) /\
  (EasyREDVIO.pinToGPIO 13 = EasyREDVIO.pinToGPIO 13 -> 13 = 13).
Proof.
  apply (pinToGPIO_injective 13 13); lia.
Defined.

(** X8. On a connected pin the functions of [EasyREDVIO.h] are those of the
    ThingPlus header applied to the table entry of the pin. *)
Theorem easy_behind_table (pin arg : Z) (m : machine) :
  0 <= pin <= 19 -> pin <> 14 ->
  exists g,
    EasyREDVIO.pinToGPIO pin = Some g /\ 0 <= g <= 23 /\
    EasyREDVIO.pinMode pin arg m = ThingPlus.pinMode g arg m /\
    EasyREDVIO.digitalWrite pin arg m = ThingPlus.digitalWrite g arg m /\
    EasyREDVIO.digitalRead pin m = ThingPlus.digitalRead g m.
Proof.
  intros Hr Hne.
  destruct (pinToGPIO_connected_range pin Hr Hne) as (g & Eg & Rg & _).
  assert (Hrem : Z.rem pin 32 = pin) by (apply Z.rem_small; lia).
  exists g. split; [exact Eg|]. split; [exact Rg|].
  rewrite easy_pinMode_unfold, easy_digitalWrite_unfold,
    easy_digitalRead_unfold, Hrem, Eg.
  repeat split.
Qed.

Lemma easy_behind_table_witness :
  exists g,
    EasyREDVIO.pinToGPIO 13 = Some g /\ 0 <= g <= 23 /\
    EasyREDVIO.pinMode 13 OUTPUT reset = ThingPlus.pinMode g OUTPUT reset /\
    EasyREDVIO.digitalWrite 13 OUTPUT reset
      = ThingPlus.digitalWrite g OUTPUT reset /\
    EasyREDVIO.digitalRead 13 reset = ThingPlus.digitalRead g reset.
Proof.
  apply (easy_behind_table 13 OUTPUT reset); lia.
Defined.

Lemma rem_add_32 (pin : Z) : 0 <= pin -> Z.rem (pin + 32) 32 = Z.rem pin 32.
Proof.
  intros H. rewrite !Z.rem_mod_nonneg by lia.
  replace (pin + 32) with (pin + 1 * 32) by lia. apply Z_mod_plus_full.
Qed.

(** X9. [EasyREDVIO.h] reduces the pin with [% 32] before the table.  So a
    non-negative pin and the pin 32 above it behave alike, for all three
    functions.  A negative pin that is not a multiple of 32 keeps a negative
    remainder, passes the guard of [pinToGPIO] and indexes the table outside
    its bounds: all three functions are undefined on it, whatever the
    mode. *)
Theorem easy_pin_modulo_32 (pin arg : Z) (m : machine) :
  (0 <= pin ->
   EasyREDVIO.pinMode (pin + 32) arg m = EasyREDVIO.pinMode pin arg m /\
   EasyREDVIO.digitalWrite (pin + 32) arg m
     = EasyREDVIO.digitalWrite pin arg m /\
   EasyREDVIO.digitalRead (pin + 32) m = EasyREDVIO.digitalRead pin m) /\
  (pin < 0 -> Z.rem pin 32 <> 0 ->
   EasyREDVIO.pinMode pin arg m = Undefined /\
   EasyREDVIO.digitalWrite pin arg m = Undefined /\
   EasyREDVIO.digitalRead pin m = Undefined).
Proof.
  split.
  - intros H.
    rewrite !easy_pinMode_unfold, !easy_digitalWrite_unfold,
      !easy_digitalRead_unfold, (rem_add_32 pin H).
    repeat split.
  - intros Hn Hr.
    assert (B : -32 < Z.rem pin 32 <= 0).
    { pose proof (Z.rem_bound_pos_neg pin 32) as B. lia. }
    rewrite easy_pinMode_unfold, easy_digitalWrite_unfold,
      easy_digitalRead_unfold, pinToGPIO_negative by lia.
    repeat split.
Qed.

Lemma easy_pin_modulo_32_witness :
  EasyREDVIO.pinMode 45 OUTPUT reset = EasyREDVIO.pinMode 13 OUTPUT reset /\
  EasyREDVIO.pinMode (-1) 7 reset = Undefined.
Proof.
  destruct (easy_pin_modulo_32 13 OUTPUT reset) as [H _].
  destruct H as (E & _); [lia|].
  destruct (easy_pin_modulo_32 (-1) 7 reset) as [_ H'].
  destruct H' as (U & _); [lia | vm_compute; discriminate |].
  split; [exact E | exact U].
Defined.

(** X10. Pin 14 and the pins 20..31 have no table entry: [pinToGPIO] gives
    -1, which [EasyREDVIO.h] uses as a shift count without a check.  On
    these pins [pinMode] with one of the three modes, [digitalWrite] and
    [digitalRead] are undefined; [pinMode] with any other mode does
    nothing. *)
Theorem easy_unconnected_pin (pin : Z) (m : machine) :
  pin = 14 \/ 20 <= pin <= 31 ->
  EasyREDVIO.pinMode pin INPUT m = Undefined /\
  EasyREDVIO.pinMode pin OUTPUT m = Undefined /\
  EasyREDVIO.pinMode pin GPIO_IOF0 m = Undefined /\
  (forall val, EasyREDVIO.digitalWrite pin val m = Undefined) /\
  EasyREDVIO.digitalRead pin m = Undefined /\
  (forall function,
      function <> INPUT -> function <> OUTPUT -> function <> GPIO_IOF0 ->
      EasyREDVIO.pinMode pin function m = Done tt m).
Proof.
  intros H.
  assert (Hrem : Z.rem pin 32 = pin) by (apply Z.rem_small; lia).
  assert (Eg : EasyREDVIO.pinToGPIO pin = Some (-1))
    by (apply pinToGPIO_unconnected; lia).
  destruct (thingplus_pin_unchecked_aux (-1) m) as (U0 & U1 & U2 & UW & UR);
    [lia|].
  rewrite !easy_pinMode_unfold, easy_digitalRead_unfold, Hrem, Eg.
  split; [exact U0|]. split; [exact U1|]. split; [exact U2|].
  split; [|split; [exact UR|]].
  - intros val. rewrite easy_digitalWrite_unfold, Hrem, Eg. apply UW.
  - intros function H0 H1 H2. rewrite easy_pinMode_unfold, Hrem, Eg.
    apply pinMode_other_run; assumption.
Qed.

Lemma easy_unconnected_pin_witness :
  EasyREDVIO.pinMode 20 OUTPUT reset = Undefined /\
  EasyREDVIO.digitalRead 14 reset = Undefined.
Proof.
  destruct (easy_unconnected_pin 20 reset) as (_ & O & _); [right; lia|].
  destruct (easy_unconnected_pin 14 reset) as (_ & _ & _ & _ & R & _);
    [left; reflexivity|].
  split; [exact O | exact R].
Defined.

(* ================================================================== *)
(** * The delay loop *)

Lemma INT_MIN_val : INT_MIN = -2147483648.
Proof. reflexivity. Qed.

Lemma INT_MAX_val : INT_MAX = 2147483647.
Proof. reflexivity. Qed.

Ltac int_lia := pose proof INT_MIN_val; pose proof INT_MAX_val; lia.

Lemma int_dec_some (i : Z) : INT_MIN < i -> int_dec i = Some (i - 1).
Proof.
  intros H. unfold int_dec.
  replace (INT_MIN <=? i - 1) with true by (symmetry; apply Z.leb_le; lia).
  reflexivity.
Qed.

Lemma delayLoop_while_S (fuel : nat) (i : Z) (m : machine) :
  INT_MIN < i ->
  delayLoop_while (S fuel) i m =
  if i =? 0 then Done tt m else delayLoop_while fuel (i - 1) m.
Proof.
  intros H. cbn [delayLoop_while]. unfold bind, defined.
  rewrite (int_dec_some i H). destruct (i =? 0); reflexivity.
Qed.

Lemma delayLoop_while_nonneg (fuel : nat) (i : Z) (m : machine) :
  0 <= i ->
  delayLoop_while fuel i m =
  if i <? Z.of_nat fuel then Done tt m else OutOfFuel.
Proof.
  revert i. induction fuel as [|fuel IH]; intros i Hi.
  - replace (i <? Z.of_nat 0) with false by (symmetry; apply Z.ltb_ge; lia).
    reflexivity.
  - assert (Hmin : INT_MIN < i) by (int_lia).
    rewrite (delayLoop_while_S fuel i m Hmin).
    destruct (Z.eqb_spec i 0) as [-> | N].
    + replace (0 <? Z.of_nat (S fuel)) with true
        by (symmetry; apply Z.ltb_lt; lia).
      reflexivity.
    + rewrite IH by lia.
      destruct (Z.ltb_spec (i - 1) (Z.of_nat fuel));
        destruct (Z.ltb_spec i (Z.of_nat (S fuel))); try reflexivity; lia.
Qed.

Lemma delayLoop_while_negative (fuel : nat) (i : Z) (m : machine) :
  INT_MIN <= i < 0 ->
  delayLoop_while fuel i m =
  if i - INT_MIN <? Z.of_nat fuel then Undefined else OutOfFuel.
Proof.
  revert i. induction fuel as [|fuel IH]; intros i Hi.
  - replace (i - INT_MIN <? Z.of_nat 0) with false
      by (symmetry; apply Z.ltb_ge; lia).
    reflexivity.
  - destruct (Z.eq_dec i INT_MIN) as [-> | N].
    + replace (INT_MIN - INT_MIN <? Z.of_nat (S fuel)) with true
        by (symmetry; apply Z.ltb_lt; lia).
      reflexivity.
    + rewrite (delayLoop_while_S fuel i m) by lia.
      replace (i =? 0) with false by (symmetry; apply Z.eqb_neq; lia).
      rewrite IH by lia.
      destruct (Z.ltb_spec (i - 1 - INT_MIN) (Z.of_nat fuel));
        destruct (Z.ltb_spec (i - INT_MIN) (Z.of_nat (S fuel)));
        try reflexivity; lia.
Qed.

Lemma int_mul_some (a b : Z) :
  INT_MIN <= a * b <= INT_MAX -> int_mul a b = Some (a * b).
Proof.
  intros H. unfold int_mul.
  replace (INT_MIN <=? a * b) with true by (symmetry; apply Z.leb_le; lia).
  replace (a * b <=? INT_MAX) with true by (symmetry; apply Z.leb_le; lia).
  reflexivity.
Qed.

Lemma int_mul_none (a b : Z) :
  a * b < INT_MIN \/ INT_MAX < a * b -> int_mul a b = None.
Proof.
  intros H. unfold int_mul. destruct H as [H | H].
  - replace (INT_MIN <=? a * b) with false by (symmetry; apply Z.leb_gt; lia).
    reflexivity.
  - replace (a * b <=? INT_MAX) with false by (symmetry; apply Z.leb_gt; lia).
    rewrite andb_false_r. reflexivity.
Qed.

(** The outcome of [delayLoop] for every argument and every fuel. *)
Lemma delayLoop_cases (fuel : nat) (ms : Z) (m : machine) :
  delayLoop fuel ms m =
  if (898 * ms <? INT_MIN) || (INT_MAX <? 898 * ms) then Undefined
  else if 0 <=? 898 * ms then
         if 898 * ms <? Z.of_nat fuel then Done tt m else OutOfFuel
       else
         if 898 * ms - INT_MIN <? Z.of_nat fuel then Undefined else OutOfFuel.
Proof.
  unfold delayLoop, bind, defined. change COUNTS_PER_MS with 898.
  destruct (Z.ltb_spec (898 * ms) INT_MIN) as [L | L]; cbn [orb].
  { rewrite int_mul_none by (left; exact L). reflexivity. }
  destruct (Z.ltb_spec INT_MAX (898 * ms)) as [U | U].
  { rewrite int_mul_none by (right; exact U). reflexivity. }
  rewrite int_mul_some by lia.
  destruct (Z.leb_spec 0 (898 * ms)) as [P | N].
  - apply delayLoop_while_nonneg. exact P.
  - apply delayLoop_while_negative. int_lia.
Qed.

(** X11. [delayLoop(ms)] for [ms >= 0] with [898 * ms] an [int]: the
    condition of the loop is evaluated [898 * ms + 1] times, then the call
    returns; it changes nothing.  In terms of fuel: the call returns exactly
    when the fuel exceeds [898 * ms]. *)
Theorem delayLoop_counts (fuel : nat) (ms : Z) (m : machine) :
  0 <= ms -> 898 * ms <= INT_MAX ->
  delayLoop fuel ms m =
  if 898 * ms <? Z.of_nat fuel then Done tt m else OutOfFuel.
Proof.
  intros H0 H1. rewrite delayLoop_cases.
  replace (898 * ms <? INT_MIN) with false
    by (symmetry; apply Z.ltb_ge; int_lia).
  replace (INT_MAX <? 898 * ms) with false by (symmetry; apply Z.ltb_ge; lia).
  replace (0 <=? 898 * ms) with true by (symmetry; apply Z.leb_le; lia).
  reflexivity.
Qed.

Lemma delayLoop_counts_witness :
  delayLoop (Z.to_nat 89801) 100 reset = Done tt reset /\
  delayLoop (Z.to_nat 89800) 100 reset = OutOfFuel.
Proof.
  assert (H0 : 0 <= 100) by lia.
  assert (H1 : 898 * 100 <= INT_MAX) by (vm_compute; discriminate).
  split.
  - rewrite (delayLoop_counts (Z.to_nat 89801) 100 reset H0 H1).
    rewrite Z2Nat.id by lia. reflexivity.
  - rewrite (delayLoop_counts (Z.to_nat 89800) 100 reset H0 H1).
    rewrite Z2Nat.id by lia. reflexivity.
Defined.

(** X12. [delayLoop] does not return at once for a negative argument, it
    never returns at all.  With [898 * ms] a negative [int], [i] counts
    down from it and the decrement at [INT_MIN] overflows, which is
    undefined: before that the loop is still running.  When [898 * ms] is
    not an [int], the multiplication itself is undefined. *)
Theorem delayLoop_negative (fuel : nat) (ms : Z) (m : machine) :
  (ms < 0 -> INT_MIN <= 898 * ms ->
   delayLoop fuel ms m =
   if 898 * ms - INT_MIN <? Z.of_nat fuel then Undefined else OutOfFuel) /\
  (898 * ms < INT_MIN \/ INT_MAX < 898 * ms ->
   delayLoop fuel ms m = Undefined) /\
  (ms < 0 -> forall m', delayLoop fuel ms m <> Done tt m').
Proof.
  assert (A : ms < 0 -> INT_MIN <= 898 * ms ->
              delayLoop fuel ms m =
              if 898 * ms - INT_MIN <? Z.of_nat fuel
              then Undefined else OutOfFuel).
  { intros Hn Hm. rewrite delayLoop_cases.
    replace (898 * ms <? INT_MIN) with false
      by (symmetry; apply Z.ltb_ge; lia).
    replace (INT_MAX <? 898 * ms) with false
      by (symmetry; apply Z.ltb_ge; int_lia).
    replace (0 <=? 898 * ms) with false by (symmetry; apply Z.leb_gt; lia).
    reflexivity. }
  assert (B : 898 * ms < INT_MIN \/ INT_MAX < 898 * ms ->
              delayLoop fuel ms m = Undefined).
  { intros H. rewrite delayLoop_cases. destruct H as [H | H].
    - replace (898 * ms <? INT_MIN) with true
        by (symmetry; apply Z.ltb_lt; lia).
      reflexivity.
    - replace (INT_MAX <? 898 * ms) with true
        by (symmetry; apply Z.ltb_lt; lia).
      rewrite orb_true_r. reflexivity. }
  split; [exact A|]. split; [exact B|].
  intros Hn m'. destruct (Z_lt_ge_dec (898 * ms) INT_MIN) as [L | G].
  - rewrite B by (left; exact L). discriminate.
  - rewrite A by int_lia.
    destruct (898 * ms - INT_MIN <? Z.of_nat fuel); discriminate.
Qed.

Lemma delayLoop_negative_witness :
  delayLoop 1000 (-1) reset = OutOfFuel /\
  delayLoop 1000 2391485 reset = Undefined.
Proof.
  destruct (delayLoop_negative 1000 (-1) reset) as (A & _).
  destruct (delayLoop_negative 1000 2391485 reset) as (_ & B & _).
  split.
  - rewrite A; [reflexivity | lia | vm_compute; discriminate].
  - apply B. right. vm_compute. reflexivity.
Defined.

(* ================================================================== *)
(** * Further properties of the SPI driver *)

(** ** [spiInit] *)

Lemma spiInit_gpio_iof_en (g : GPIO) :
  spiInit_gpio g iof_en = set32 5 (set32 4 (set32 3 (set32 2 (g iof_en)))).
Proof. reflexivity. Qed.

Lemma spiInit_gpio_iof_sel (g : GPIO) :
  spiInit_gpio g iof_sel
  = clear32 5 (clear32 4 (clear32 3 (clear32 2 (g iof_sel)))).
Proof. reflexivity. Qed.

Lemma spiInit_gpio_other (g : GPIO) (r : gpio_reg) :
  r <> iof_en -> r <> iof_sel -> spiInit_gpio g r = g r.
Proof. intros H1 H2. destruct r; try reflexivity; congruence. Qed.

Lemma spiInit_gpio_bits (g : GPIO) (i : Z) :
  0 <= i ->
  Z.testbit (spiInit_gpio g iof_en) i
  = (i <? 32) && (Z.testbit (g iof_en) i || ((2 <=? i) && (i <=? 5))) /\
  Z.testbit (spiInit_gpio g iof_sel) i
  = (i <? 32) && Z.testbit (g iof_sel) i && negb ((2 <=? i) && (i <=? 5)).
Proof.
  intros Hi. rewrite spiInit_gpio_iof_en, spiInit_gpio_iof_sel.
  rewrite !testbit_set32, !testbit_clear32 by lia.
  destruct (Z.eqb_spec 2 i), (Z.eqb_spec 3 i), (Z.eqb_spec 4 i),
    (Z.eqb_spec 5 i), (Z.leb_spec 2 i), (Z.leb_spec i 5); try lia;
    destruct (i <? 32), (Z.testbit (g iof_en) i), (Z.testbit (g iof_sel) i);
    split; reflexivity.
Qed.

(** X13. [spiInit] hands GPIO 2..5 to hardware function 0 and touches no
    other pin: it returns, bits 2..5 of [iof_en] are then set and bits 2..5
    of [iof_sel] clear, every other bit of these two registers is as
    before, and every other GPIO register is unchanged. *)
Theorem spiInit_routes_pins (clkdivide cpol cpha : Z) (m : machine) :
  exists m1,
    spiInit clkdivide cpol cpha m = Done tt m1 /\
    (forall i, 2 <= i <= 5 ->
               Z.testbit (gpio m1 iof_en) i = true /\
               Z.testbit (gpio m1 iof_sel) i = false) /\
    (forall r i, 0 <= i < 32 -> i < 2 \/ 5 < i ->
                 same_bit (gpio m) (gpio m1) r i) /\
    (forall r, r <> iof_en -> r <> iof_sel -> gpio m1 r = gpio m r).
Proof.
  destruct (spiInit_run clkdivide cpol cpha m) as (t & E).
  eexists. split; [exact E|]. cbn [gpio]. split; [|split].
  - intros i Hi. destruct (spiInit_gpio_bits (gpio m) i) as [A B]; [lia|].
    rewrite A, B.
    replace (i <? 32) with true by (symmetry; apply Z.ltb_lt; lia).
    replace (2 <=? i) with true by (symmetry; apply Z.leb_le; lia).
    replace (i <=? 5) with true by (symmetry; apply Z.leb_le; lia).
    split; [apply orb_true_r | apply andb_false_r].
  - intros r i Hi Ho. unfold same_bit.
    destruct (spiInit_gpio_bits (gpio m) i) as [A B]; [lia|].
    assert (O : (2 <=? i) && (i <=? 5) = false).
    { destruct (Z.leb_spec 2 i), (Z.leb_spec i 5); try reflexivity; lia. }
    destruct (gpio_reg_eq_dec r iof_en) as [-> | N1].
    { rewrite A, O.
      replace (i <? 32) with true by (symmetry; apply Z.ltb_lt; lia).
      rewrite orb_false_r. reflexivity. }
    destruct (gpio_reg_eq_dec r iof_sel) as [-> | N2].
    { rewrite B, O.
      replace (i <? 32) with true by (symmetry; apply Z.ltb_lt; lia).
      cbn [negb]. rewrite andb_true_r. reflexivity. }
    rewrite spiInit_gpio_other by assumption. reflexivity.
  - intros r. apply spiInit_gpio_other.
Qed.

Lemma spiInit_stores (clkdivide cpol cpha : Z) (m : machine) :
  spiInit clkdivide cpol cpha m
  = Done tt (mkMachine (spiInit_gpio (gpio m))
               (spiInit_spi clkdivide cpol cpha (spi m))
               (trace m ++
                [Store sckdiv_div (clkdivide mod 2 ^ 12);
                 Store sckmode_pol (cpol mod 2 ^ 1);
                 Store sckmode_pha (cpha mod 2 ^ 1);
                 Store csid_csid 0; Store csmode_mode 2;
                 Store fmt_proto 0; Store fmt_endian 0; Store fmt_dir 0;
                 Store fmt_len 8; Store fctrl_en 0;
                 Store delay1_interxfr 0; Store delay0_cssck 0;
                 Store delay0_sckcs 0;
                 Store ie_rxwm 1; Store ie_txwm 1;
                 Store rxmark_rxmark 0; Store txmark_txmark 1])).
Proof.
  unfold spiInit.
  rewrite (bind_done _ _ _ _ _ (pinMode_iof0 2 _ ltac:(lia)));
    cbn [gpio spi trace].
  rewrite (bind_done _ _ _ _ _ (pinMode_iof0 3 _ ltac:(lia)));
    cbn [gpio spi trace].
  rewrite (bind_done _ _ _ _ _ (pinMode_iof0 4 _ ltac:(lia)));
    cbn [gpio spi trace].
  rewrite (bind_done _ _ _ _ _ (pinMode_iof0 5 _ ltac:(lia)));
    cbn [gpio spi trace].
  repeat (rewrite (bind_done _ _ _ _ _ (store_run _ _ _));
          cbn [gpio spi trace]).
  rewrite store_run. cbn [gpio spi trace].
  repeat rewrite <- app_assoc. reflexivity.
Qed.

(** X14. The SPI side of [spiInit]: it makes seventeen stores to SPI1, in
    the order of the source, and no load, so nothing goes over the bus.
    [clkdivide] is stored modulo 2^12 and [cpol], [cpha] modulo 2; after the
    call every field written holds the value of the source and every other
    field is unchanged. *)
Theorem spiInit_configures (clkdivide cpol cpha : Z) (m : machine) :
  exists m1,
    spiInit clkdivide cpol cpha m = Done tt m1 /\
    trace m1 =
      trace m ++
      [Store sckdiv_div (clkdivide mod 2 ^ 12);
       Store sckmode_pol (cpol mod 2 ^ 1);
       Store sckmode_pha (cpha mod 2 ^ 1);
       Store csid_csid 0; Store csmode_mode 2;
       Store fmt_proto 0; Store fmt_endian 0; Store fmt_dir 0;
       Store fmt_len 8; Store fctrl_en 0;
       Store delay1_interxfr 0; Store delay0_cssck 0; Store delay0_sckcs 0;
       Store ie_rxwm 1; Store ie_txwm 1;
       Store rxmark_rxmark 0; Store txmark_txmark 1] /\
    tx_bytes (trace m1) = tx_bytes (trace m) /\
    rx_bytes (trace m1) = rx_bytes (trace m) /\
    forall f,
      spi m1 f =
      match f with
      | sckdiv_div => clkdivide mod 2 ^ 12
      | sckmode_pol => cpol mod 2 ^ 1
      | sckmode_pha => cpha mod 2 ^ 1
      | csid_csid => 0
      | csmode_mode => 2
      | fmt_proto | fmt_endian | fmt_dir => 0
      | fmt_len => 8
      | fctrl_en => 0
      | delay1_interxfr | delay0_cssck | delay0_sckcs => 0
      | ie_rxwm | ie_txwm => 1
      | rxmark_rxmark => 0
      | txmark_txmark => 1
      | _ => spi m f
      end.
Proof.
  eexists. split; [apply spiInit_stores|]. cbn [gpio spi trace].
  split; [reflexivity|]. split; [|split].
  - rewrite tx_bytes_app. cbn. apply app_nil_r.
  - rewrite rx_bytes_app. cbn. apply app_nil_r.
  - intros f. destruct f; reflexivity.
Qed.

(* ================================================================== *)
(** ** Outcomes of the transfers *)

Section Outcomes.

Variable dev : peripheral.


Lemma spiSendReceive_hangs (fuel : nat) (send : Z) (m : machine) :
  never_set dev ip_txwm (trace m) ->
  spiSendReceive dev fuel send m = OutOfFuel.
Proof.
  intros N.
  destruct (spiSendReceive_cases dev fuel send m)
    as [(n1 & n2 & _ & _ & F1 & _) | [E _]]; [|exact E].
  exfalso. exact (never_not_first dev _ _ _ N F1).
Qed.

Lemma spiSendReceive16_intro (fuel : nat) (x : Z) (m m1 m2 : machine)
      (r1 r2 : Z) :
  spiSendReceive dev fuel (Z.land (Z.shiftr x 8) 0xFF)
    (mkMachine (gpio m) (upd_spi csmode_mode 2 (spi m))
               (trace m ++ [Store csmode_mode 2])) = Done r1 m1 ->
  spiSendReceive dev fuel (Z.land x 0xFF) m1 = Done r2 m2 ->
  spiSendReceive16 dev fuel x m =
  Done (Z.lor (Z.shiftl r1 8) r2)
       (mkMachine (gpio m2) (upd_spi csmode_mode 0 (spi m2))
                  (trace m2 ++ [Store csmode_mode 0])).
Proof.
  intros E1 E2. rewrite spiSendReceive16_eq. unfold bind. rewrite store_run.
  change (2 mod 2 ^ width csmode_mode) with 2. rewrite E1, E2. reflexivity.
Qed.

Lemma spiSendReceive16_defined (fuel : nat) (x : Z) (m : machine) :
  spiSendReceive16 dev fuel x m <> Undefined.
Proof.
  rewrite spiSendReceive16_eq. unfold bind. rewrite store_run.
  destruct (spiSendReceive dev fuel (Z.land (Z.shiftr x 8) 0xFF) _)
    as [r1 m1| |] eqn:E1; try discriminate.
  - destruct (spiSendReceive dev fuel (Z.land x 0xFF) m1)
      as [r2 m2| |] eqn:E2; try discriminate.
    exfalso. exact (spiSendReceive_defined dev _ _ _ E2).
  - exfalso. exact (spiSendReceive_defined dev _ _ _ E1).
Qed.


Lemma spiSendReceive16_hangs (fuel : nat) (x : Z) (m : machine) :
  never_set dev ip_txwm (trace m ++ [Store csmode_mode 2]) ->
  spiSendReceive16 dev fuel x m = OutOfFuel.
Proof.
  intros N. rewrite spiSendReceive16_eq. unfold bind. rewrite store_run.
  rewrite spiSendReceive_hangs; [reflexivity | exact N].
Qed.

Lemma spiWrite_defined (fuel : nat) (a v : Z) (m : machine) :
  spiWrite dev fuel a v m <> Undefined.
Proof.
  unfold spiWrite, bind.
  destruct (spiSendReceive16 dev fuel _ m) as [r m1| |] eqn:E;
    try discriminate.
  exfalso. exact (spiSendReceive16_defined _ _ _ E).
Qed.

Lemma spiRead_defined (fuel : nat) (a : Z) (m : machine) :
  spiRead dev fuel a m <> Undefined.
Proof.
  unfold spiRead, bind.
  destruct (spiSendReceive16 dev fuel _ m) as [r m1| |] eqn:E;
    try discriminate.
  exfalso. exact (spiSendReceive16_defined _ _ _ E).
Qed.



End Outcomes.



(** X16. A peripheral that never raises [ip.txwm] after the store of HOLD
    to [csmode.mode] hangs every entry point of the driver:
    [spiSendReceive16], [spiWrite] and [spiRead] are still spinning after
    any number of polls. *)
Theorem transfers_hang_without_txwm (dev : peripheral) (m : machine) :
  never_set dev ip_txwm (trace m ++ [Store csmode_mode 2]) ->
  forall fuel,
    (forall x, spiSendReceive16 dev fuel x m = OutOfFuel) /\
    (forall a v, spiWrite dev fuel a v m = OutOfFuel) /\
    (forall a, spiRead dev fuel a m = OutOfFuel).
Proof.
  intros N fuel. split; [|split].
  - intros x. apply spiSendReceive16_hangs. exact N.
  - intros a v. unfold spiWrite, bind.
    rewrite spiSendReceive16_hangs by exact N. reflexivity.
  - intros a. unfold spiRead, bind.
    rewrite spiSendReceive16_hangs by exact N. reflexivity.
Qed.

Lemma transfers_hang_without_txwm_witness :
  spiRead dead 1000 0x0F reset = OutOfFuel /\
  spiWrite dead 1000 0x20 0x77 reset = OutOfFuel.
Proof.
  assert (N : never_set dead ip_txwm (trace reset ++ [Store csmode_mode 2]))
    by (intros k; reflexivity).
  destruct (transfers_hang_without_txwm dead reset N 1000) as (_ & W & R).
  split; [apply R | apply W].
Defined.

(* ================================================================== *)
(** ** What a word transfer keeps and what it carries *)

Lemma upd_spi_same (f : spi_field) (v : Z) (s : SPI) : upd_spi f v s f = v.
Proof.
  unfold upd_spi. destruct (spi_field_eq_dec f f); [reflexivity | congruence].
Qed.

Lemma upd_spi_other (f f' : spi_field) (v : Z) (s : SPI) :
  f' <> f -> upd_spi f v s f' = s f'.
Proof.
  intros H. unfold upd_spi.
  destruct (spi_field_eq_dec f' f); [congruence | reflexivity].
Qed.

Lemma testbit_0xFF (j : Z) : 0 <= j -> Z.testbit 0xFF j = (j <? 8).
Proof.
  intros Hj. change 0xFF with (Z.ones 8).
  rewrite Z.testbit_ones by lia.
  replace (0 <=? j) with true by (symmetry; apply Z.leb_le; lia).
  reflexivity.
Qed.

(** Splitting a 16-bit word as [spiSendReceive16] does and putting the two
    bytes together again, high byte first, gives the word back. *)
Lemma split_recombine (x : Z) :
  0 <= x < 2 ^ 16 ->
  Z.lor (Z.shiftl (Z.land (Z.shiftr x 8) 0xFF) 8) (Z.land x 0xFF) = x.
Proof.
  intros Hx. apply Z.bits_inj'. intros i Hi.
  rewrite Z.lor_spec, Z.shiftl_spec, !Z.land_spec by lia.
  rewrite (testbit_0xFF i) by lia.
  destruct (Z.ltb_spec i 8) as [L | G].
  - rewrite (Z.testbit_neg_r _ (i - 8)) by lia.
    rewrite andb_true_r. reflexivity.
  - rewrite Z.shiftr_spec, testbit_0xFF by lia.
    replace (i - 8 + 8) with i by lia. rewrite andb_false_r, orb_false_r.
    destruct (Z.ltb_spec (i - 8) 8) as [L' | G'].
    + apply andb_true_r.
    + rewrite andb_false_r. symmetry.
      rewrite <- (Z.mod_small x (2 ^ 16)) by exact Hx.
      apply Z.mod_pow2_bits_high. lia.
Qed.

(** X17. A call of [spiSendReceive16] that returns leaves the GPIO block
    and every SPI field other than [csmode.mode] and [txdata.data] as they
    were: the configuration written by [spiInit] survives, except the
    chip-select mode.  [txdata.data] was last written with the low byte of
    the argument, and the result is a 16-bit value. *)
Theorem spiSendReceive16_frame (dev : peripheral) (fuel : nat) (x : Z)
        (m m' : machine) (r : Z) :
  spiSendReceive16 dev fuel x m = Done r m' ->
  gpio m' = gpio m /\
  (forall f, f <> csmode_mode -> f <> txdata_data -> spi m' f = spi m f) /\
  spi m' txdata_data = Z.land x 0xFF /\
  0 <= r < 2 ^ 16.
Proof.
  intros E. apply spiSendReceive16_inv in E.
  destruct E as (r1 & m1 & r2 & m2 & E1 & E2 & -> & ->).
  pose proof (spiSendReceive_byte dev _ _ _ _ _ E1) as B1.
  pose proof (spiSendReceive_byte dev _ _ _ _ _ E2) as B2.
  apply spiSendReceive_bytes in E1, E2. cbn [gpio spi trace] in E1.
  destruct E1 as (_ & _ & _ & G1 & S1).
  destruct E2 as (_ & _ & _ & G2 & S2).
  rewrite land_0xFF_mod in S1, S2. cbn [gpio spi].
  split; [congruence|]. split; [|split].
  - intros f N1 N2. rewrite upd_spi_other by exact N1.
    rewrite S2, upd_spi_other by exact N2.
    rewrite S1, upd_spi_other by exact N2.
    apply upd_spi_other. exact N1.
  - rewrite upd_spi_other by discriminate. rewrite S2. apply upd_spi_same.
  - apply word_range; assumption.
Qed.

Lemma spiSendReceive16_frame_witness :
  exists r m',
    spiSendReceive16 loopback 3 0xABCD reset = Done r m' /\
    spi m' fmt_len = spi reset fmt_len /\
    spi m' txdata_data = Z.land 0xABCD 0xFF.
Proof.
  destruct (spiSendReceive16 loopback 3 0xABCD reset) as [r m'| |] eqn:E;
    [|vm_compute in E; discriminate E|vm_compute in E; discriminate E].
  destruct (spiSendReceive16_frame loopback 3 0xABCD reset m' r E)
    as (_ & F & T & _).
  exists r, m'. split; [reflexivity|]. split; [|exact T].
  apply F; discriminate.
Defined.

(** X18. Both directions of [spiSendReceive16] are big-endian and lose
    nothing.  For a 16-bit [x], the two bytes transmitted, high byte first,
    put together give [x]; the first byte received is the high byte of the
    result and the second its low byte. *)
Theorem spiSendReceive16_big_endian (dev : peripheral) (fuel : nat) (x : Z)
        (m m' : machine) (r : Z) :
  0 <= x < 2 ^ 16 ->
  spiSendReceive16 dev fuel x m = Done r m' ->
  exists b1 b2 r1 r2,
    tx_bytes (trace m') = tx_bytes (trace m) ++ [b1; b2] /\
    Z.lor (Z.shiftl b1 8) b2 = x /\
    rx_bytes (trace m') = rx_bytes (trace m) ++ [r1; r2] /\
    Z.land (Z.shiftr r 8) 0xFF = r1 /\
    Z.land r 0xFF = r2.
Proof.
  intros Hx E.
  destruct (spiSendReceive16_bytes dev fuel x m m' r E)
    as (r1 & r2 & mid & T & R & B1 & B2 & -> & _).
  exists (Z.land (Z.shiftr x 8) 0xFF), (Z.land x 0xFF), r1, r2.
  split; [exact T|]. split; [apply split_recombine; exact Hx|].
  split; [exact R|]. split; [apply word_high | apply word_low]; assumption.
Qed.

Lemma spiSendReceive16_big_endian_witness :
  exists r m' b1 b2,
    spiSendReceive16 loopback 3 0xABCD reset = Done r m' /\
    tx_bytes (trace m') = tx_bytes (trace reset) ++ [b1; b2] /\
    Z.lor (Z.shiftl b1 8) b2 = 0xABCD.
Proof.
  assert (R : 0 <= 0xABCD < 2 ^ 16) by (simpl; lia).
  destruct (spiSendReceive16 loopback 3 0xABCD reset) as [r m'| |] eqn:E;
    [|vm_compute in E; discriminate E|vm_compute in E; discriminate E].
  destruct (spiSendReceive16_big_endian loopback 3 0xABCD reset m' r R E)
    as (b1 & b2 & _ & _ & T & V & _).
  exists r, m', b1, b2. split; [reflexivity|]. split; [exact T | exact V].
Defined.

(** X19. The read marker is absorbed: [spiRead] on an address and on the
    same address with its top bit set are the same call.  And a [spiWrite]
    of 0 to an address with the top bit set is, on the bus and in the
    registers, the [spiRead] of that address with the value dropped. *)
Theorem read_marker_absorbed (dev : peripheral) (fuel : nat) (a : Z)
        (m : machine) :
  spiRead dev fuel (Z.lor a 0x80) m = spiRead dev fuel a m /\
  spiWrite dev fuel (Z.lor a 0x80) 0 m = (spiRead dev fuel a;; ret tt) m.
Proof.
  assert (W : Z.shiftl (Z.lor a 0x80) 8 = Z.lor (Z.shiftl a 8) (Z.shiftl 1 15)).
  { rewrite Z.shiftl_lor. reflexivity. }
  split.
  - unfold spiRead. rewrite W, <- Z.lor_assoc, Z.lor_diag. reflexivity.
  - unfold spiWrite, spiRead. rewrite Z.lor_0_r, W. unfold bind.
    destruct (spiSendReceive16 dev fuel _ m); reflexivity.
Qed.

(* ================================================================== *)
(** ** Against a loopback *)

Lemma loopback_txwm_after (tr : list access) (e : access) :
  (forall v, e <> Load ip_txwm v) ->
  first_set loopback ip_txwm (tr ++ [e]) 1.
Proof.
  intros He. split.
  - intros k Hk. assert (k = 0%nat) by lia. subst k.
    rewrite spins_0. unfold answer, loopback. rewrite last_last.
    destruct e as [g v | g v]; [|reflexivity].
    destruct (spi_field_eq_dec g ip_txwm) as [-> | N]; [|reflexivity].
    exfalso. exact (He v eq_refl).
  - unfold spins, answer, loopback. cbn [repeat]. rewrite last_last.
    vm_compute. discriminate.
Qed.

Lemma loopback_answers_last_tx (tr : list access) (n1 n2 : nat) (s : Z) :
  0 <= s < 256 ->
  answer loopback (received tr n1 s n2) rxdata_data = s.
Proof.
  intros Hs. unfold answer, loopback, received, sent, spins.
  rewrite !tx_bytes_app, !tx_bytes_loads. cbn [tx_bytes flat_map app].
  rewrite !app_nil_r.
  change [s] with ([] ++ [s]) at 1. rewrite app_assoc, last_last.
  apply Z.mod_small. exact Hs.
Qed.

(** One byte through the loopback: both flags come up at the second poll
    and the byte comes back. *)
Lemma loopback_spiSendReceive (fuel : nat) (s : Z) (g : GPIO) (sp : SPI)
      (tr : list access) (e : access) :
  (2 <= fuel)%nat -> (forall v, e <> Load ip_txwm v) -> 0 <= s < 256 ->
  spiSendReceive loopback fuel s (mkMachine g sp (tr ++ [e]))
  = Done s (after_transfer loopback (mkMachine g sp (tr ++ [e])) 1 s 1).
Proof.
  intros Hf He Hs.
  assert (S8 : s mod 2 ^ 8 = s) by (apply Z.mod_small; exact Hs).
  pose proof (spiSendReceive_done loopback fuel s
                (mkMachine g sp (tr ++ [e])) 1 1) as D.
  rewrite S8 in D. cbn [trace] in D.
  rewrite (loopback_answers_last_tx (tr ++ [e]) 1 1 s Hs) in D.
  apply D; try lia.
  - apply loopback_txwm_after. exact He.
  - unfold sent.
    change [Load ip_txwm 1; Store txdata_data s]
      with ([Load ip_txwm 1] ++ [Store txdata_data s]).
    rewrite app_assoc. apply loopback_rxwm_second_poll.
Qed.

(** X20. With MOSI wired to MISO (the peripheral [loopback], which shows
    each flag at the second poll and gives back the byte last sent),
    [spiSendReceive16] returns its argument: for every 16-bit [x], every
    state and at least two polls per loop, the call returns [x]. *)
Theorem loopback_returns_word (fuel : nat) (x : Z) (m : machine) :
  0 <= x < 2 ^ 16 -> (2 <= fuel)%nat ->
  exists m', spiSendReceive16 loopback fuel x m = Done x m'.
Proof.
  intros Hx Hf.
  pose proof (land_0xFF_range (Z.shiftr x 8)) as Hh.
  pose proof (land_0xFF_range x) as Hl.
  pose proof (loopback_spiSendReceive fuel (Z.land (Z.shiftr x 8) 0xFF)
                (gpio m) (upd_spi csmode_mode 2 (spi m)) (trace m)
                (Store csmode_mode 2) Hf ltac:(intros v; discriminate) Hh)
    as E1.
  set (m1 := after_transfer loopback
               (mkMachine (gpio m) (upd_spi csmode_mode 2 (spi m))
                          (trace m ++ [Store csmode_mode 2]))
               1 (Z.land (Z.shiftr x 8) 0xFF) 1) in E1.
  set (t1 := received (trace m ++ [Store csmode_mode 2]) 1
               (Z.land (Z.shiftr x 8) 0xFF) 1).
  pose proof (loopback_spiSendReceive fuel (Z.land x 0xFF)
                (gpio m1) (spi m1) t1
                (Load rxdata_data (answer loopback t1 rxdata_data)) Hf
                ltac:(intros v; discriminate) Hl) as E2.
  change (mkMachine (gpio m1) (spi m1) _) with m1 in E2.
  eexists.
  rewrite (spiSendReceive16_intro loopback fuel x m _ _ _ _ E1 E2).
  rewrite split_recombine by exact Hx. reflexivity.
Qed.

Lemma loopback_returns_word_witness :
  exists m', spiSendReceive16 loopback 2 0xFFFF reset = Done 0xFFFF m'.
Proof.
  apply (loopback_returns_word 2 0xFFFF reset); [simpl; lia | lia].
Defined.

(* ================================================================== *)
(** * [main] *)

Lemma bind_defined {A B} (c : M A) (k : A -> M B) (m : machine) :
  c m <> Undefined ->
  (forall a m1, c m = Done a m1 -> k a m1 <> Undefined) ->
  bind c k m <> Undefined.
Proof.
  intros Hc Hk. unfold bind. destruct (c m) as [a m1| |] eqn:E.
  - apply Hk. reflexivity.
  - congruence.
  - discriminate.
Qed.

Lemma delayLoop_100_defined (fuel : nat) (m : machine) :
  delayLoop fuel 100 m <> Undefined.
Proof.
  rewrite delayLoop_cases.
  change ((898 * 100 <? INT_MIN) || (INT_MAX <? 898 * 100)) with false.
  change (0 <=? 898 * 100) with true. cbv iota.
  destruct (898 * 100 <? Z.of_nat fuel); discriminate.
Qed.

Lemma delayLoop_100_done (fuel : nat) (m m' : machine) :
  delayLoop fuel 100 m = Done tt m' -> m' = m /\ 89800 < Z.of_nat fuel.
Proof.
  rewrite delayLoop_cases.
  change ((898 * 100 <? INT_MIN) || (INT_MAX <? 898 * 100)) with false.
  change (0 <=? 898 * 100) with true. cbv iota.
  change (898 * 100) with 89800.
  destruct (Z.ltb_spec 89800 (Z.of_nat fuel)); [|discriminate].
  intros E. injection E as <-. split; [reflexivity | assumption].
Qed.

Section MainSafe.

Variable dev : peripheral.
Variable left_first : bool.

Lemma main_sample_defined (fuel : nat) (lo hi : Z) (m : machine) :
  main_sample dev left_first fuel lo hi m <> Undefined.
Proof.
  unfold main_sample. destruct left_first.
  - apply bind_defined; [apply spiRead_defined|]. intros a m1 _.
    apply bind_defined; [apply spiRead_defined|]. intros b m2 _.
    discriminate.
  - apply bind_defined; [apply spiRead_defined|]. intros a m1 _.
    apply bind_defined; [apply spiRead_defined|]. intros b m2 _.
    discriminate.
Qed.

Lemma main_setup_defined (fuel : nat) (m : machine) :
  main_setup dev fuel m <> Undefined.
Proof.
  unfold main_setup.
  apply bind_defined; [rewrite spiInit_stores; discriminate|]. intros _ m1 _.
  apply bind_defined; [apply spiWrite_defined|]. intros _ m2 _.
  apply bind_defined; [apply spiWrite_defined|]. intros _ m3 _.
  apply bind_defined; [apply spiRead_defined|]. intros d m4 _.
  discriminate.
Qed.

Lemma main_body_defined (fuel : nat) (m : machine) :
  main_body dev left_first fuel m <> Undefined.
Proof.
  unfold main_body.
  apply bind_defined; [apply main_sample_defined|]. intros x m1 _.
  apply bind_defined; [apply main_sample_defined|]. intros y m2 _.
  apply bind_defined; [apply delayLoop_100_defined|]. intros _ m3 _.
  discriminate.
Qed.

Lemma main_loop_spins (fuel rounds : nat) (m : machine) :
  main_loop dev left_first fuel rounds m = OutOfFuel.
Proof.
  revert m. induction rounds as [|rounds IH]; intros m; [reflexivity|].
  cbn [main_loop]. unfold bind.
  destruct (main_body dev left_first fuel m) as [xy m1| |] eqn:E.
  - apply IH.
  - exfalso. exact (main_body_defined _ _ E).
  - reflexivity.
Qed.

End MainSafe.

(** X21. [main] never returns and never runs into undefined behaviour:
    whatever the peripheral answers, whichever of the two [spiRead] calls of
    an expression is made first, and however many polls and rounds are
    allowed, the run is still going. *)
Theorem main_never_returns (dev : peripheral) (left_first : bool)
        (fuel rounds : nat) (m : machine) :
  main dev left_first fuel rounds m = OutOfFuel.
Proof.
  unfold main, bind.
  destruct (main_setup dev fuel m) as [d m1| |] eqn:E.
  - apply main_loop_spins.
  - exfalso. exact (main_setup_defined dev _ _ E).
  - reflexivity.
Qed.

(* ================================================================== *)
(** ** What [main] puts on the bus *)

Section MainBus.

Variable dev : peripheral.


Lemma spiRead_bytes (fuel : nat) (a : Z) (m m' : machine) (r : Z) :
  0 <= a < 256 ->
  spiRead dev fuel a m = Done r m' ->
  tx_bytes (trace m') = tx_bytes (trace m) ++ [Z.lor a 0x80; 0] /\
  (exists r1, rx_bytes (trace m') = rx_bytes (trace m) ++ [r1; r]) /\
  0 <= r < 256 /\
  gpio m' = gpio m /\ spi m' csmode_mode = 0.
Proof.
  intros Ha E. unfold spiRead, bind in E.
  destruct (spiSendReceive16 dev fuel _ m) as [w m1| |] eqn:E16;
    try discriminate E.
  unfold ret in E. injection E as <- <-.
  change (Z.shiftl 1 15) with 0x8000 in E16.
  unfold to_u16 in E16. rewrite Z.mod_small in E16.
  2:{ apply lor_range.
      - rewrite Z.shiftl_mul_pow2 by lia. change (2 ^ 8) with 256.
        change (2 ^ 16) with 65536. lia.
      - simpl. lia. }
  destruct (spiSendReceive16_bytes dev _ _ _ _ _ E16)
    as (r1 & r2 & mid & T & R & B1 & B2 & -> & _ & G & C).
  rewrite read_word in T.
  rewrite word_high, word_low in T by (try apply read_byte_range; lia).
  unfold to_u8. rewrite <- land_0xFF, word_low by assumption.
  split; [exact T|]. split; [exists r1; exact R|].
  split; [exact B2|]. split; assumption.
Qed.

End MainBus.



Lemma lor_low_high (vl vh : Z) :
  0 <= vl < 256 -> 0 <= vh < 256 ->
  Z.lor vl (Z.shiftl vh 8) = vl + 256 * vh.
Proof.
  intros Hl Hh. rewrite Z.lor_comm.
  pose proof (word_range vh vl Hh Hl) as R.
  pose proof (word_low vh vl Hh Hl) as L.
  pose proof (word_high vh vl Hh Hl) as H.
  set (w := Z.lor (Z.shiftl vh 8) vl) in *.
  rewrite land_0xFF in L, H. rewrite Z.shiftr_div_pow2 in H by lia.
  change (2 ^ 8) with 256 in *. change (2 ^ 16) with 65536 in *.
  rewrite Z.mod_small in H
    by (split; [apply Z.div_pos; lia | apply Z.div_lt_upper_bound; lia]).
  rewrite (Z.div_mod w 256) by lia. lia.
Qed.

Lemma to_i16_spec (w : Z) :
  0 <= w < 2 ^ 16 ->
  to_i16 w mod 2 ^ 16 = w /\ - 2 ^ 15 <= to_i16 w < 2 ^ 15.
Proof.
  intros Hw. unfold to_i16. rewrite (Z.mod_small w) by exact Hw.
  change (2 ^ 16) with 65536 in *. change (2 ^ 15) with 32768.
  destruct (Z.ltb_spec w 32768).
  - split; [apply Z.mod_small; lia | lia].
  - split; [|lia].
    replace (w - 65536) with (w + (-1) * 65536) by lia.
    rewrite Z_mod_plus_full. apply Z.mod_small. lia.
Qed.

Lemma Done_inj {A} (a a' : A) (m m' : machine) :
  Done a m = Done a' m' -> a = a' /\ m = m'.
Proof. intros E. injection E as -> ->. split; reflexivity. Qed.

(** One expression [spiRead(lo) | (spiRead(hi) << 8)] of the loop. *)
Lemma main_sample_bytes (dev : peripheral) (left_first : bool) (fuel : nat)
      (lo hi : Z) (m m' : machine) (x : Z) :
  0 <= lo < 256 -> 0 <= hi < 256 ->
  main_sample dev left_first fuel lo hi m = Done x m' ->
  exists d1 d2 vl vh,
    tx_bytes (trace m') =
      tx_bytes (trace m) ++
      (if left_first then [Z.lor lo 0x80; 0; Z.lor hi 0x80; 0]
       else [Z.lor hi 0x80; 0; Z.lor lo 0x80; 0]) /\
    rx_bytes (trace m') =
      rx_bytes (trace m) ++
      (if left_first then [d1; vl; d2; vh] else [d1; vh; d2; vl]) /\
    0 <= vl < 256 /\ 0 <= vh < 256 /\
    x mod 2 ^ 16 = vl + 256 * vh /\ - 2 ^ 15 <= x < 2 ^ 15 /\
    gpio m' = gpio m.
Proof.
  intros Hlo Hhi E. unfold main_sample in E.
  rewrite (to_u8_byte lo Hlo), (to_u8_byte hi Hhi) in E.
  destruct left_first; unfold bind in E.
  - destruct (spiRead dev fuel lo m) as [a m1| |] eqn:E1; try discriminate E.
    destruct (spiRead dev fuel hi m1) as [b m2| |] eqn:E2;
      try discriminate E.
    unfold ret in E. apply Done_inj in E. destruct E as [<- <-].
    apply spiRead_bytes in E1, E2; try assumption.
    destruct E1 as (T1 & (d1 & R1) & B1 & G1 & _).
    destruct E2 as (T2 & (d2 & R2) & B2 & G2 & _).
    exists d1, d2, a, b. rewrite lor_low_high by assumption.
    assert (W : 0 <= a + 256 * b < 2 ^ 16)
      by (change (2 ^ 16) with 65536; lia).
    destruct (to_i16_spec _ W) as [V Rg].
    split; [rewrite T2, T1, <- app_assoc; reflexivity|].
    split; [rewrite R2, R1, <- app_assoc; reflexivity|].
    repeat (split; [assumption|]). congruence.
  - destruct (spiRead dev fuel hi m) as [b m1| |] eqn:E1; try discriminate E.
    destruct (spiRead dev fuel lo m1) as [a m2| |] eqn:E2;
      try discriminate E.
    unfold ret in E. apply Done_inj in E. destruct E as [<- <-].
    apply spiRead_bytes in E1, E2; try assumption.
    destruct E1 as (T1 & (d1 & R1) & B1 & G1 & _).
    destruct E2 as (T2 & (d2 & R2) & B2 & G2 & _).
    exists d1, d2, a, b. rewrite lor_low_high by assumption.
    assert (W : 0 <= a + 256 * b < 2 ^ 16)
      by (change (2 ^ 16) with 65536; lia).
    destruct (to_i16_spec _ W) as [V Rg].
    split; [rewrite T2, T1, <- app_assoc; reflexivity|].
    split; [rewrite R2, R1, <- app_assoc; reflexivity|].
    repeat (split; [assumption|]). congruence.
Qed.

(** X23. One round of the loop of [main], when it returns.  It makes four
    register reads, of 0x28 and 0x29 for [x] and of 0x2A and 0x2B for [y]
    (within each pair in the order C leaves open), each transmitting the
    address with the read marker and then 0x00.  Of the two bytes each read
    receives, the first is dropped; [x] and [y] are the 16-bit two's
    complement values whose low byte answered 0x28 resp. 0x2A and whose high
    byte answered 0x29 resp. 0x2B.  The round ends with the delay loop
    running its 89800 counts, and changes no GPIO register. *)
Theorem main_body_samples (dev : peripheral) (left_first : bool)
        (fuel : nat) (m m' : machine) (x y : Z) :
  main_body dev left_first fuel m = Done (x, y) m' ->
  exists d1 d2 d3 d4 xl xh yl yh,
    tx_bytes (trace m') =
      tx_bytes (trace m) ++
      (if left_first then [0xA8; 0; 0xA9; 0; 0xAA; 0; 0xAB; 0]
       else [0xA9; 0; 0xA8; 0; 0xAB; 0; 0xAA; 0]) /\
    rx_bytes (trace m') =
      rx_bytes (trace m) ++
      (if left_first then [d1; xl; d2; xh; d3; yl; d4; yh]
       else [d1; xh; d2; xl; d3; yh; d4; yl]) /\
    (0 <= xl < 256 /\ 0 <= xh < 256 /\ 0 <= yl < 256 /\ 0 <= yh < 256) /\
    x mod 2 ^ 16 = xl + 256 * xh /\ - 2 ^ 15 <= x < 2 ^ 15 /\
    y mod 2 ^ 16 = yl + 256 * yh /\ - 2 ^ 15 <= y < 2 ^ 15 /\
    89800 < Z.of_nat fuel /\
    gpio m' = gpio m.
Proof.
  unfold main_body, bind. intros E.
  destruct (main_sample dev left_first fuel 0x28 0x29 m)
    as [x0 m1| |] eqn:E1; try discriminate E.
  destruct (main_sample dev left_first fuel 0x2A 0x2B m1)
    as [y0 m2| |] eqn:E2; try discriminate E.
  destruct (delayLoop fuel 100 m2) as [[] m3| |] eqn:E3; try discriminate E.
  unfold ret in E. injection E as <- <- <-.
  apply delayLoop_100_done in E3. destruct E3 as [-> F].
  apply main_sample_bytes in E1; [|lia|lia].
  apply main_sample_bytes in E2; [|lia|lia].
  destruct E1 as (d1 & d2 & xl & xh & T1 & R1 & Bl1 & Bh1 & V1 & Rg1 & G1).
  destruct E2 as (d3 & d4 & yl & yh & T2 & R2 & Bl2 & Bh2 & V2 & Rg2 & G2).
  exists d1, d2, d3, d4, xl, xh, yl, yh.
  split; [rewrite T2, T1, <- app_assoc; destruct left_first; reflexivity|].
  split; [rewrite R2, R1, <- app_assoc; destruct left_first; reflexivity|].
  split; [repeat split; lia|].
  repeat (split; [assumption|]). congruence.
Qed.

Lemma main_body_samples_witness :
  exists x y m',
    main_body loopback true (Z.to_nat 89801) reset = Done (x, y) m' /\
    tx_bytes (trace m') =
      tx_bytes (trace reset) ++ [0xA8; 0; 0xA9; 0; 0xAA; 0; 0xAB; 0] /\
    - 2 ^ 15 <= x < 2 ^ 15.
Proof.
  destruct (main_body loopback true (Z.to_nat 89801) reset)
    as [[x y] m'| |] eqn:E;
    [|vm_compute in E; discriminate E|vm_compute in E; discriminate E].
  destruct (main_body_samples loopback true _ reset m' x y E)
    as (d1 & d2 & d3 & d4 & xl & xh & yl & yh & T & _ & _ & _ & R & _).
  exists x, y, m'. split; [reflexivity|]. split; [exact T | exact R].
Defined.
